(** * LoggerDeploy data-plane engine: a shallow embedding and its properties

    The development follows the Python sources of [core_logger]:

    - [services/modbus_service.py]  : address convention and float byte orders;
    - [services/storage_service.py] : engine pool and batched insert;
    - [services/job_executor.py]    : metrics, trigger evaluation, worker loop;
    - [views/mappings.py], [views/tables.py], [views/jobs.py] : mapping health
      and the write callback handed to the executor.

    Conventions.  Python [int] is [Z].  Python [float] is an exact rational
    ([Q]): rounding of float arithmetic is outside the model, except for the
    one place where the code depends on it, the index [int(len * 0.95)], which
    is computed on IEEE-754 binary64 with [SpecFloat].  A [datetime] is a
    number of microseconds ([Z]).  A [dict] with string keys is a [gmap].
    A Python call that can raise returns an [outcome]. *)

From Stdlib Require Import ZArith QArith Qabs Qround Qminmax Lia Bool.
From Stdlib Require Import Floats.SpecFloat Sorting.Sorted.
From stdpp Require Import gmap strings list fin_maps.

Local Open Scope Z_scope.

(** ** Outcomes of Python calls *)

Inductive outcome (A : Type) : Type :=
| Ret (a : A)
| Raise (exc : string).
Arguments Ret {A} a.
Arguments Raise {A} exc.

Definition bind {A B : Type} (o : outcome A) (k : A -> outcome B) : outcome B :=
  match o with
  | Ret a => k a
  | Raise e => Raise e
  end.

Notation "x <-! o ; k" := (bind o (fun x => k))
  (at level 100, o at next level, right associativity).

Definition returns {A : Type} (o : outcome A) : Prop :=
  match o with Ret _ => True | Raise _ => False end.

(** ** services/modbus_service.py *)

Module ModbusService.

Inductive register_type : Type := holding | input | coil | discrete.

(** [ModbusService._parse_address], lines 254-274. *)
Definition _parse_address (address : Z) : register_type * Z :=
  if (40001 <=? address) && (address <=? 49999) then (holding, address - 40001)
  else if (30001 <=? address) && (address <=? 39999) then (input, address - 30001)
  else if (10001 <=? address) && (address <=? 19999) then (discrete, address - 10001)
  else if (0 <=? address) && (address <=? 9999) then (coil, address)
  else (holding, address).

(** [ModbusService._to_signed_int], lines 276-280. *)
Definition _to_signed_int (value : Z) : Z :=
  if 32768 <=? value then value - 65536 else value.

(** High and low byte of a 16-bit register. *)
Definition hi (r : Z) : Z := Z.shiftr r 8.
Definition lo (r : Z) : Z := Z.land r 255.

(** The two byte orders of [struct.pack]: ['>'] and ['<']. *)
Inductive endianness : Type := BigEndian | LittleEndian.

(** [struct.pack] of one ['H'] (unsigned 16 bit); out of range raises
    [struct.error]. *)
Definition pack_H (e : endianness) (v : Z) : outcome (list Z) :=
  if (0 <=? v) && (v <=? 65535) then
    match e with
    | BigEndian => Ret [hi v; lo v]
    | LittleEndian => Ret [lo v; hi v]
    end
  else Raise "struct.error".

(** [struct.pack('>HH', a, b)] and [struct.pack('<HH', a, b)]. *)
Definition pack_HH (e : endianness) (a b : Z) : outcome (list Z) :=
  x <-! pack_H e a; y <-! pack_H e b; Ret (x ++ y).

(** [struct.unpack('>f', bytes)[0]]: the four bytes read as one big-endian
    IEEE-754 binary32 word; the value is exact in binary64. *)
Definition unpack_f (bytes_data : list Z) : outcome spec_float :=
  match bytes_data with
  | [b0; b1; b2; b3] =>
      let bits := Z.lor (Z.shiftl b0 24)
                    (Z.lor (Z.shiftl b1 16) (Z.lor (Z.shiftl b2 8) b3)) in
      let s := Z.testbit bits 31 in
      let e := Z.land (Z.shiftr bits 23) 255 in
      let m := Z.land bits 8388607 in
      if e =? 255 then Ret (if m =? 0 then S754_infinity s else S754_nan)
      else if e =? 0 then
        Ret (if m =? 0 then S754_zero s else S754_finite s (Z.to_pos m) (-149))
      else Ret (S754_finite s (Z.to_pos (m + 8388608)) (e - 150))
  | _ => Raise "struct.error"
  end.

(** The [if]/[elif] chain of [_registers_to_float], lines 304-318: the bytes
    bound to [bytes_data]. *)
Definition bytes_data (reg1 reg2 : Z) (byte_order : string) : outcome (list Z) :=
  if String.eqb byte_order "ABCD" then pack_HH BigEndian reg1 reg2
  else if String.eqb byte_order "DCBA" then pack_HH LittleEndian reg2 reg1
  else if String.eqb byte_order "BADC" then pack_HH BigEndian reg2 reg1
  else if String.eqb byte_order "CDAB" then pack_HH LittleEndian reg1 reg2
  else pack_HH BigEndian reg1 reg2.

(** [ModbusService._registers_to_float], lines 282-321. *)
Definition _registers_to_float (registers : list Z) (byte_order : string)
  : outcome spec_float :=
  match registers with
  | reg1 :: reg2 :: _ =>
      b <-! bytes_data reg1 reg2 byte_order; unpack_f b
  | _ => Raise "ValueError: Need at least 2 registers for float conversion"
  end.

(** The characters [_registers_to_string] appends, as code points: the
    [for] loop of lines 326-334 with its two [break]s. *)
Fixpoint string_chars (registers : list Z) : list Z :=
  match registers with
  | [] => []
  | reg :: rest =>
      let high_byte := Z.land (Z.shiftr reg 8) 255 in
      let low_byte := Z.land reg 255 in
      if high_byte =? 0 then []
      else if low_byte =? 0 then [high_byte]
      else high_byte :: low_byte :: string_chars rest
  end.

(** [chr(b)] for a byte. *)
Definition chr (b : Z) : Ascii.ascii := Ascii.ascii_of_N (Z.to_N b).

(** [ModbusService._registers_to_string], lines 323-335. *)
Definition _registers_to_string (registers : list Z) : string :=
  String.string_of_list_ascii (chr <$> string_chars registers).

End ModbusService.

(** ** Python values *)

(** What a field of a [values] dictionary can hold: [None] (a failed read),
    the four mapped data types, and the [datetime] stamped on a row. *)
Inductive pyval : Type :=
| VNone
| VBool (b : bool)
| VInt (n : Z)
| VFloat (q : Q)
| VStr (s : string)
| VTime (us : Z).

(** The number a value denotes in arithmetic; [bool] is a subclass of [int]. *)
Definition as_num (v : pyval) : option Q :=
  match v with
  | VBool b => Some (if b then 1%Q else 0%Q)
  | VInt n => Some (inject_Z n)
  | VFloat q => Some q
  | _ => None
  end.

(** [isinstance(v, (int, float))]. *)
Definition is_int_or_float (v : pyval) : bool :=
  match v with
  | VBool _ | VInt _ | VFloat _ => true
  | _ => false
  end.

Definition Qlt_bool (x y : Q) : bool := negb (Qle_bool y x).

(** [a == b]: numbers by value, strings and datetimes structurally, [None]
    only equal to itself, different kinds unequal. *)
Definition py_eq (a b : pyval) : bool :=
  match as_num a, as_num b with
  | Some x, Some y => Qeq_bool x y
  | None, None =>
      match a, b with
      | VNone, VNone => true
      | VStr s, VStr t => String.eqb s t
      | VTime s, VTime t => s =? t
      | _, _ => false
      end
  | _, _ => false
  end.

Definition py_ne (a b : pyval) : bool := negb (py_eq a b).

(** [abs(a - b)]: defined on numbers, [TypeError] otherwise.  The result is
    given as a float; whether Python makes it an [int] or a [float] plays no
    role where it is used, only its value does. *)
Definition py_abs_sub (a b : pyval) : outcome pyval :=
  match as_num a, as_num b with
  | Some x, Some y => Ret (VFloat (Qabs (x - y)))
  | _, _ => Raise "TypeError: unsupported operand type(s) for -"
  end.

(** Ordering of a value against a float: [TypeError] unless it is a number. *)
Definition py_cmp (rel : Q -> Q -> bool) (a : pyval) (t : Q) : outcome bool :=
  match as_num a with
  | Some x => Ret (rel x t)
  | None => Raise "TypeError: comparison not supported"
  end.

Definition py_gt := py_cmp (fun x t => Qlt_bool t x).
Definition py_ge := py_cmp (fun x t => Qle_bool t x).
Definition py_lt := py_cmp (fun x t => Qlt_bool x t).
Definition py_le := py_cmp (fun x t => Qle_bool x t).

(** Truth value of an object. *)
Definition truthy (v : pyval) : bool :=
  match v with
  | VNone => false
  | VBool b => b
  | VInt n => negb (n =? 0)
  | VFloat q => negb (Qeq_bool q 0)
  | VStr s => negb (String.eqb s "")
  | VTime _ => true
  end.

(** A [values] dictionary: field key to value. *)
Abbreviation values_t := (gmap string pyval).

(** ** services/job_executor.py: [JobMetrics] *)

Module JobMetrics.

Record error_entry : Type := mk_error {
  code : string;
  message : string;
  timestamp : Z
}.

Record t : Type := mk {
  job_id : string;
  reads : Z;
  read_errors : Z;
  writes : Z;
  write_errors : Z;
  rows_written : Z;
  triggers_evaluated : Z;
  triggers_fired : Z;
  triggers_suppressed : Z;
  read_latencies : list Q;
  write_latencies : list Q;
  started_at : option Z;
  last_read_at : option Z;
  last_write_at : option Z;
  errors : list error_entry
}.

(** [JobMetrics(job_id=job_id)]: the dataclass defaults. *)
Definition new (jid : string) : t :=
  mk jid 0 0 0 0 0 0 0 0 [] [] None None None [].

(** [deque(maxlen=1000).append]: a full deque discards from the other end. *)
Definition maxlen : nat := 1000.

Definition deque_append (d : list Q) (x : Q) : list Q :=
  let d' := d ++ [x] in
  drop (length d' - maxlen)%nat d'.

(** [record_read], lines 38-44; [now] is the reading of [datetime.utcnow()]. *)
Definition record_read (now : Z) (latency_ms : Q) (success : bool) (m : t) : t :=
  let r := reads m + 1 in
  if success then
    mk (job_id m) r (read_errors m) (writes m) (write_errors m) (rows_written m)
       (triggers_evaluated m) (triggers_fired m) (triggers_suppressed m)
       (deque_append (read_latencies m) latency_ms) (write_latencies m)
       (started_at m) (Some now) (last_write_at m) (errors m)
  else
    mk (job_id m) r (read_errors m + 1) (writes m) (write_errors m) (rows_written m)
       (triggers_evaluated m) (triggers_fired m) (triggers_suppressed m)
       (read_latencies m) (write_latencies m)
       (started_at m) (last_read_at m) (last_write_at m) (errors m).

(** [record_write], lines 46-53. *)
Definition record_write (now : Z) (latency_ms : Q) (rows : Z) (success : bool)
  (m : t) : t :=
  let w := writes m + 1 in
  if success then
    mk (job_id m) (reads m) (read_errors m) w (write_errors m) (rows_written m + rows)
       (triggers_evaluated m) (triggers_fired m) (triggers_suppressed m)
       (read_latencies m) (deque_append (write_latencies m) latency_ms)
       (started_at m) (last_read_at m) (Some now) (errors m)
  else
    mk (job_id m) (reads m) (read_errors m) w (write_errors m + 1) (rows_written m)
       (triggers_evaluated m) (triggers_fired m) (triggers_suppressed m)
       (read_latencies m) (write_latencies m)
       (started_at m) (last_read_at m) (last_write_at m) (errors m).

(** [record_trigger], lines 55-60. *)
Definition record_trigger (fired suppressed : bool) (m : t) : t :=
  mk (job_id m) (reads m) (read_errors m) (writes m) (write_errors m) (rows_written m)
     (triggers_evaluated m + 1)
     (if fired then triggers_fired m + 1 else triggers_fired m)
     (if suppressed then triggers_suppressed m + 1 else triggers_suppressed m)
     (read_latencies m) (write_latencies m)
     (started_at m) (last_read_at m) (last_write_at m) (errors m).

(** [record_error], lines 62-70: only the last 100 entries are kept. *)
Definition record_error (now : Z) (c msg : string) (m : t) : t :=
  let es := errors m ++ [mk_error c msg now] in
  mk (job_id m) (reads m) (read_errors m) (writes m) (write_errors m) (rows_written m)
     (triggers_evaluated m) (triggers_fired m) (triggers_suppressed m)
     (read_latencies m) (write_latencies m)
     (started_at m) (last_read_at m) (last_write_at m)
     (if (100 <? length es)%nat then drop (length es - 100)%nat es else es).

(** [reset], lines 96-110. *)
Definition reset (now : Z) (m : t) : t :=
  mk (job_id m) 0 0 0 0 0 0 0 0 [] [] (Some now) None None [].

(** [sum(lats)], starting from [0]. *)
Definition sum (lats : list Q) : Q := fold_left Qplus lats 0%Q.

(** [sorted(lats)]: a stable ascending sort. *)
Fixpoint insert_sorted (x : Q) (l : list Q) : list Q :=
  match l with
  | [] => [x]
  | y :: l' => if Qle_bool x y then x :: l else y :: insert_sorted x l'
  end.

Definition sorted (lats : list Q) : list Q := foldr insert_sorted [] lats.

(** The binary64 nearest to [0.95], i.e. [0x1.e666666666666p-1]. *)
Definition float_0_95 : spec_float := S754_finite false 8556839292003942 (-53).

(** [float(n)] for an [int] below [2^53]. *)
Definition float_of_int (n : Z) : spec_float :=
  match n with
  | Z0 => S754_zero false
  | Zpos p => S754_finite false p 0
  | Zneg p => S754_finite true p 0
  end.

(** [int(f)]: truncation towards zero. *)
Definition int_of_float (f : spec_float) : outcome Z :=
  match f with
  | S754_zero _ => Ret 0
  | S754_finite s m e =>
      let v := if 0 <=? e then Zpos m * 2 ^ e else Zpos m / 2 ^ (- e) in
      Ret (if s then - v else v)
  | S754_infinity _ => Raise "OverflowError: cannot convert float infinity to integer"
  | S754_nan => Raise "ValueError: cannot convert float NaN to integer"
  end.

(** [int(len(lats) * 0.95)], the product taken in binary64. *)
Definition p95_index (len : nat) : outcome Z :=
  int_of_float (SFmul 53 1024 (float_of_int (Z.of_nat len)) float_0_95).

(** [l[i]] for a non-negative or negative index; [IndexError] out of range. *)
Definition py_index (l : list Q) (i : Z) : outcome Q :=
  let j := if i <? 0 then i + Z.of_nat (length l) else i in
  if j <? 0 then Raise "IndexError: list index out of range"
  else match l !! Z.to_nat j with
       | Some x => Ret x
       | None => Raise "IndexError: list index out of range"
       end.

(** [sum(lats) / len(lats) if lats else None], lines 86-87. *)
Definition avg_latency (lats : list Q) : option Q :=
  match lats with
  | [] => None
  | _ => Some (sum lats / inject_Z (Z.of_nat (length lats)))%Q
  end.

(** [sorted(lats)[int(len(lats) * 0.95)] if len(lats) > 20 else None],
    lines 88-89. *)
Definition p95_latency (lats : list Q) : outcome (option Q) :=
  if (20 <? length lats)%nat then
    i <-! p95_index (length lats);
    x <-! py_index (sorted lats) i;
    Ret (Some x)
  else Ret None.

Record summary : Type := mk_summary {
  s_job_id : string;
  s_reads : Z;
  s_read_errors : Z;
  s_writes : Z;
  s_write_errors : Z;
  s_rows_written : Z;
  s_triggers_evaluated : Z;
  s_triggers_fired : Z;
  s_triggers_suppressed : Z;
  avg_read_latency_ms : option Q;
  avg_write_latency_ms : option Q;
  p95_read_latency_ms : option Q;
  p95_write_latency_ms : option Q;
  s_started_at : option Z;
  s_last_read_at : option Z;
  s_last_write_at : option Z;
  recent_errors : list error_entry
}.

(** [get_summary], lines 72-94. *)
Definition get_summary (m : t) : outcome summary :=
  let read_lats := read_latencies m in
  let write_lats := write_latencies m in
  p95r <-! p95_latency read_lats;
  p95w <-! p95_latency write_lats;
  Ret (mk_summary (job_id m) (reads m) (read_errors m) (writes m) (write_errors m)
         (rows_written m) (triggers_evaluated m) (triggers_fired m)
         (triggers_suppressed m)
         (avg_latency read_lats) (avg_latency write_lats) p95r p95w
         (started_at m) (last_read_at m) (last_write_at m)
         (drop (length (errors m) - 10)%nat (errors m))).

(** The operations a worker performs on its metrics object. *)
Inductive op : Type :=
| OpRead (now : Z) (latency_ms : Q) (success : bool)
| OpWrite (now : Z) (latency_ms : Q) (rows : Z) (success : bool)
| OpTrigger (fired suppressed : bool)
| OpError (now : Z) (c msg : string)
| OpReset (now : Z).

Definition apply_op (m : t) (o : op) : t :=
  match o with
  | OpRead now l s => record_read now l s m
  | OpWrite now l r s => record_write now l r s m
  | OpTrigger f s => record_trigger f s m
  | OpError now c msg => record_error now c msg m
  | OpReset now => reset now m
  end.

Definition run (jid : string) (ops : list op) : t := fold_left apply_op ops (new jid).

End JobMetrics.

(** ** services/modbus_service.py: client pool and typed reads *)

Module ModbusClient.

Import ModbusService.

(** A pooled [ModbusTcpClient]: its number and its [connected] flag. *)
Record client : Type := mk_client {
  client_id : nat;
  connected : bool
}.

(** What a read request on a client comes to: a response with registers (or
    bits, as 0 and 1), an error response ([result.isError()]), or an
    exception raised by the client. *)
Inductive response : Type :=
| Values (l : list Z)
| ErrorResponse (msg : string)
| Failure (msg : string).

(** The device side: whether [client.connect()] to a host and port
    succeeds, and what a read of [count] items at [address] of unit
    [unit_id] answers. *)
Record device_env : Type := mk_env {
  connect_ok : string -> Z -> bool;
  answer : string -> Z -> register_type -> Z -> Z -> Z -> response
}.

(** The singleton's state: the pool [_clients] keyed by [(host, port)], the
    clients on which [close()] has been called, and the number of clients
    created so far. *)
Record t : Type := mk {
  _clients : gmap (string * Z) client;
  closed : list client;
  created : nat
}.

(** [_get_client], lines 44-69. *)
Definition _get_client (env : device_env) (host : string) (port : Z) (self : t)
  : outcome client * t :=
  let key := (host, port) in
  match _clients self !! key with
  | Some c =>
      if connected c then (Ret c, self)
      else if connect_ok env host port then
        let c' := mk_client (created self) true in
        (Ret c', mk (<[key := c']> (_clients self)) (closed self)
                   (S (created self)))
      else (Raise "ConnectionError", mk (_clients self) (closed self)
                                        (S (created self)))
  | None =>
      if connect_ok env host port then
        let c' := mk_client (created self) true in
        (Ret c', mk (<[key := c']> (_clients self)) (closed self)
                   (S (created self)))
      else (Raise "ConnectionError", mk (_clients self) (closed self)
                                        (S (created self)))
  end.

(** [_drop_client], lines 71-82. *)
Definition _drop_client (host : string) (port : Z) (self : t) : t :=
  let key := (host, port) in
  match _clients self !! key with
  | Some c => mk (delete key (_clients self)) (closed self ++ [c]) (created self)
  | None => self
  end.


(** [l[:count]]: a negative [count] counts from the end. *)
Definition slice_to (count : Z) (l : list Z) : list Z :=
  if count <? 0 then take (Z.to_nat (Z.of_nat (length l) + count)) l
  else take (Z.to_nat count) l.

(** [read_registers], lines 139-187, for one of the four register types:
    the client is obtained outside the [try]; inside it an error response
    or an exception drops the client before the exception goes on. *)
Definition read_registers (env : device_env) (host : string) (port : Z)
  (address count unit_id : Z) (register_type : register_type) (self : t)
  : outcome (list Z) * t :=
  match _get_client env host port self with
  | (Raise e, self1) => (Raise e, self1)
  | (Ret _, self1) =>
      match answer env host port register_type address count unit_id with
      | Values l =>
          match register_type with
          | coil | discrete => (Ret (slice_to count l), self1)
          | _ => (Ret l, self1)
          end
      | ErrorResponse msg =>
          (Raise ("Modbus read error: " +:+ msg), _drop_client host port self1)
      | Failure msg => (Raise msg, _drop_client host port self1)
      end
  end.

(** What [read_value] returns: [bool], [int], [float] or [str]. *)
Inductive value : Type :=
| VB (b : bool)
| VI (n : Z)
| VF (f : spec_float)
| VS (s : string).

(** [registers[0]]. *)
Definition first (registers : list Z) : outcome Z :=
  match registers with
  | r :: _ => Ret r
  | [] => Raise "IndexError: list index out of range"
  end.

(** The float [1.0], the default [scale]. *)
Definition float_1_0 : spec_float := S754_finite false 4503599627370496 (-52).

(** [read_value], lines 189-252; [float(n)] and [int(f)] are the
    conversions of the metrics module, products are taken in binary64. *)
Definition read_value (env : device_env) (host : string) (port : Z)
  (address : Z) (data_type : string) (unit_id : Z) (byte_order : string)
  (scale : spec_float) (self : t) : outcome value * t :=
  let '(register_type, actual_address) := _parse_address address in
  if String.eqb data_type "bool" then
    let '(r, self1) :=
      read_registers env host port actual_address 1 unit_id register_type self in
    (registers <-! r; x <-! first registers; Ret (VB (negb (x =? 0))),
     self1)
  else if String.eqb data_type "int" then
    let '(r, self1) :=
      read_registers env host port actual_address 1 unit_id register_type self in
    (registers <-! r; x <-! first registers;
     n <-! JobMetrics.int_of_float
             (SFmul 53 1024 (JobMetrics.float_of_int (_to_signed_int x)) scale);
     Ret (VI n),
     self1)
  else if String.eqb data_type "float" then
    let '(r, self1) :=
      read_registers env host port actual_address 2 unit_id register_type self in
    (registers <-! r; f <-! _registers_to_float registers byte_order;
     Ret (VF (SFmul 53 1024 f scale)),
     self1)
  else if String.eqb data_type "string" then
    let '(r, self1) :=
      read_registers env host port actual_address 16 unit_id register_type self in
    (registers <-! r; Ret (VS (_registers_to_string registers)), self1)
  else (Raise ("Unknown data type: " +:+ data_type), self).

End ModbusClient.

(** ** services/storage_service.py *)

Module StorageService.

Definition NAMESPACE : string := "neuract".

(** A SQLAlchemy engine, identified by the URL it was created for. *)
Record Engine : Type := mk_engine { url : string }.

(** The database side: whether [create_engine(url)] succeeds, and whether
    connecting, executing and committing a statement on an engine succeeds. *)
Record db_env : Type := mk_env {
  create_engine_ok : string -> bool;
  select_1_ok : Engine -> bool;
  insert_ok : Engine -> string -> list values_t -> bool
}.

(** The singleton's state: the pool [_engines], and the engines on which
    [dispose()] has been called, latest last. *)
Record t : Type := mk {
  _engines : gmap string Engine;
  disposed : list Engine
}.

(** [s.startswith(p)]. *)
Definition startswith (s p : string) : bool := String.prefix p s.

(** [_build_connection_url], lines 51-84. *)
Definition _build_connection_url (provider connection_string : string)
  : outcome string :=
  if String.eqb provider "sqlite" then Ret ("sqlite:///" +:+ connection_string)
  else if String.eqb provider "postgres" then
    if startswith connection_string "postgresql://" then Ret connection_string
    else Ret ("postgresql://" +:+ connection_string)
  else if String.eqb provider "mysql" then
    if startswith connection_string "mysql://" then Ret connection_string
    else Ret ("mysql+pymysql://" +:+ connection_string)
  else if String.eqb provider "mssql" then
    if startswith connection_string "mssql://" then Ret connection_string
    else Ret ("mssql+pyodbc://" +:+ connection_string)
  else Raise ("Unknown provider: " +:+ provider).

(** The pool key [f"{provider}:{connection_string}"]. *)
Definition engine_key (provider connection_string : string) : string :=
  provider +:+ ":" +:+ connection_string.

(** [_get_engine], lines 86-105. *)
Definition _get_engine (env : db_env) (provider connection_string : string)
  (self : t) : outcome Engine * t :=
  let key := engine_key provider connection_string in
  match _engines self !! key with
  | Some engine => (Ret engine, self)
  | None =>
      match _build_connection_url provider connection_string with
      | Raise e => (Raise e, self)
      | Ret u =>
          if create_engine_ok env u then
            let engine := mk_engine u in
            (Ret engine, mk (<[key := engine]> (_engines self)) (disposed self))
          else (Raise "create_engine failed", self)
      end
  end.

(** [_drop_engine], lines 107-115. *)
Definition _drop_engine (provider connection_string : string) (self : t) : t :=
  let key := engine_key provider connection_string in
  match _engines self !! key with
  | Some engine => mk (delete key (_engines self)) (disposed self ++ [engine])
  | None => self
  end.

(** [test_connection], lines 117-141, without the latency. *)
Definition test_connection (env : db_env) (provider connection_string : string)
  (self : t) : (bool * string) * t :=
  match _get_engine env provider connection_string self with
  | (Ret engine, self1) =>
      if select_1_ok env engine then ((true, ""), self1)
      else ((false, "SELECT 1 failed"),
            _drop_engine provider connection_string self1)
  | (Raise e, self1) =>
      ((false, e), _drop_engine provider connection_string self1)
  end.

(** [_get_table_name], lines 143-152. *)
Definition _get_table_name (table_name provider : string) : string :=
  if String.eqb provider "postgres" || String.eqb provider "mssql"
  then NAMESPACE +:+ "." +:+ table_name
  else NAMESPACE +:+ "__" +:+ table_name.

(** The loop of lines 367-369: [timestamp_utc] is added where absent. *)
Definition stamp_rows (now : Z) (rows : list values_t) : list values_t :=
  (fun row =>
     match row !! "timestamp_utc" with
     | Some _ => row
     | None => <["timestamp_utc" := VTime now]> row
     end) <$> rows.

(** [insert_batch], lines 339-387: [(success, rows_inserted, error_message)]. *)
Definition insert_batch (env : db_env) (now : Z)
  (provider connection_string table_name : string) (rows : list values_t)
  (self : t) : (bool * Z * string) * t :=
  match rows with
  | [] => ((true, 0, ""), self)
  | _ =>
      match _get_engine env provider connection_string self with
      | (Raise e, self1) => ((false, 0, e), self1)
      | (Ret engine, self1) =>
          let full_table_name := _get_table_name table_name provider in
          let rows' := stamp_rows now rows in
          if insert_ok env engine full_table_name rows'
          then ((true, Z.of_nat (length rows), ""), self1)
          else ((false, 0, "INSERT failed"), self1)
      end
  end.

(** The physical table [create_table] makes, lines 215-218: an optional
    schema and a table name. *)
Definition created_table (provider table_name : string)
  : option string * string :=
  if String.eqb provider "postgres" || String.eqb provider "mssql"
  then (Some NAMESPACE, table_name)
  else (None, NAMESPACE +:+ "__" +:+ table_name).

(** The physical table [table_exists] asks the catalog for, lines 262-287. *)
Definition queried_table (provider table_name : string)
  : option string * string :=
  if String.eqb provider "postgres" then (Some NAMESPACE, table_name)
  else if String.eqb provider "mssql" then (Some NAMESPACE, table_name)
  else if String.eqb provider "mysql"
  then (None, NAMESPACE +:+ "__" +:+ table_name)
  else (None, NAMESPACE +:+ "__" +:+ table_name).

(** A schema-qualified name as SQL writes it. *)
Definition qualified (t : option string * string) : string :=
  match t with
  | (Some schema, name) => schema +:+ "." +:+ name
  | (None, name) => name
  end.

(** [s[n:]]. *)
Fixpoint string_drop (n : nat) (s : string) : string :=
  match n, s with
  | O, _ => s
  | S n', String _ s' => string_drop n' s'
  | S _, EmptyString => EmptyString
  end.

(** Lines 427-431 of [discover_tables]: the namespace prefix is stripped
    from a name that starts with it. *)
Definition strip_namespace (name : string) : string :=
  let prefix := NAMESPACE +:+ "__" in
  if startswith name prefix then string_drop (String.length prefix) name
  else name.

(** [discover_tables], lines 389-437; [listing] is what the catalog query
    of the provider yields on an engine: the table names, or a failure. *)
Definition discover_tables (env : db_env)
  (listing : Engine -> outcome (list string))
  (provider connection_string : string) (self : t) : list string * t :=
  match _get_engine env provider connection_string self with
  | (Raise _, self1) => ([], self1)
  | (Ret engine, self1) =>
      match listing engine with
      | Raise _ => ([], self1)
      | Ret names => (strip_namespace <$> names, self1)
      end
  end.


End StorageService.

(** ** views/mappings.py and views/tables.py: mapping health *)

Module MappingHealth.

Inductive t : Type := UNMAPPED | PARTIAL | MAPPED.

(** The part of a [DeviceTable] the health computation reads and writes:
    the keys of [table.schema.fields], the [field_key]s of [table.mappings],
    and the stored [mapping_health]. *)
Record DeviceTable : Type := mk_table {
  schema_keys : list string;
  mapping_keys : list string;
  mapping_health : t
}.

(** The [if]/[elif] chain shared by [_update_mapping_health] (mappings.py,
    lines 309-316) and [mapping_health] (tables.py, lines 206-213);
    [mapped_fields >= schema_fields] is the superset test. *)
Definition health (schema_fields mapped_fields : gset string) : t :=
  if bool_decide (schema_fields = ∅) then UNMAPPED
  else if bool_decide (schema_fields ⊆ mapped_fields) then MAPPED
  else if bool_decide (mapped_fields ≠ ∅) then PARTIAL
  else UNMAPPED.

(** [FieldMappingViewSet._update_mapping_health], lines 304-320. *)
Definition _update_mapping_health (table : DeviceTable) : DeviceTable :=
  let schema_fields : gset string := list_to_set (schema_keys table) in
  let mapped_fields : gset string := list_to_set (mapping_keys table) in
  mk_table (schema_keys table) (mapping_keys table)
    (health schema_fields mapped_fields).

(** The mutations after which the view recomputes the health: a mapping is
    created ([perform_create]), its key changed ([perform_update]), deleted
    ([perform_destroy]), mappings are upserted by key ([bulk], [copy_from]),
    or all mappings are replaced ([import_mappings]). *)
Inductive mutation : Type :=
| Create (field_key : string)
| Update (field_key new_key : string)
| Destroy (field_key : string)
| Upsert (field_keys : list string)
| Import (field_keys : list string).

Definition mutate (mu : mutation) (table : DeviceTable) : DeviceTable :=
  let keys :=
    match mu with
    | Create k => mapping_keys table ++ [k]
    | Update k k' =>
        (fun x => if bool_decide (x = k) then k' else x) <$> mapping_keys table
    | Destroy k => filter (fun k' => k' ≠ k) (mapping_keys table)
    | Upsert ks =>
        mapping_keys table ++ filter (fun k => k ∉ mapping_keys table) ks
    | Import ks => ks
    end in
  _update_mapping_health
    (mk_table (schema_keys table) keys (mapping_health table)).

End MappingHealth.

(** ** services/job_executor.py: [JobExecutor] *)

Module JobExecutor.

(** A trigger dictionary as [_build_job_config] (views/jobs.py, lines 252-260)
    builds it from a [JobTrigger] row: [value] is a nullable float, [deadband]
    a float, [cooldown_ms] an integer. *)
Record trigger : Type := mk_trigger {
  field : string;
  operator : string;
  value : option Q;
  deadband : Q;
  cooldown_ms : Z
}.

(** The dictionaries of the singleton that trigger evaluation uses. *)
Record t : Type := mk {
  _job_last_values : gmap string (gmap string values_t);
  _job_cooldowns : gmap string (gmap string Z)
}.

(** The operator chain of [_evaluate_triggers], lines 378-409: the value of
    [fired] before the cooldown check. *)
Definition raw_fired (tr : trigger) (new_val old_val : pyval) : outcome bool :=
  let op := operator tr in
  let threshold := value tr in
  if String.eqb op "change" then
    match old_val with
    | VNone => Ret false
    | _ =>
        diff <-! (if is_int_or_float new_val then py_abs_sub new_val old_val
                  else Ret (VBool (py_ne new_val old_val)));
        if is_int_or_float diff then py_gt diff (deadband tr)
        else Ret (truthy diff)
    end
  else if String.eqb op "rising" then
    match old_val, threshold with
    | VNone, _ | _, None => Ret false
    | _, Some th =>
        a <-! py_le old_val th; if a then py_gt new_val th else Ret false
    end
  else if String.eqb op "falling" then
    match old_val, threshold with
    | VNone, _ | _, None => Ret false
    | _, Some th =>
        a <-! py_ge old_val th; if a then py_lt new_val th else Ret false
    end
  else if String.eqb op ">" then
    match threshold with Some th => py_gt new_val th | None => Ret false end
  else if String.eqb op ">=" then
    match threshold with Some th => py_ge new_val th | None => Ret false end
  else if String.eqb op "<" then
    match threshold with Some th => py_lt new_val th | None => Ret false end
  else if String.eqb op "<=" then
    match threshold with Some th => py_le new_val th | None => Ret false end
  else if String.eqb op "==" then
    match threshold with
    | Some th => Ret (py_eq new_val (VFloat th))
    | None => Ret false
    end
  else if String.eqb op "!=" then
    match threshold with
    | Some th => Ret (py_ne new_val (VFloat th))
    | None => Ret false
    end
  else Ret false.

(** [f"{table_id}:{field}"], line 412. *)
Definition cooldown_key (table_id fld : string) : string :=
  table_id +:+ ":" +:+ fld.

(** [(now - last_fire).total_seconds() * 1000], line 416. *)
Definition elapsed_ms (now last_fire : Z) : Q :=
  (((now - last_fire) # 1000000) * 1000)%Q.

(** The branch a trigger takes through lines 411-426. *)
Inductive verdict : Type := NotFired | Suppressed | Fired.

(** History of an evaluation: one entry per trigger that reached the
    cooldown check, with its cooldown key, the time of the evaluation, the
    trigger's [cooldown_ms], what its operator gave for [fired], and the
    branch taken.  It is only appended to and never read by the code. *)
Record log_entry : Type := mk_entry {
  le_key : string;
  le_now : Z;
  le_cooldown_ms : Z;
  le_fired : bool;
  le_verdict : verdict
}.

(** The variables the [for trigger in triggers] loop updates. *)
Record eval_state : Type := mk_eval {
  cooldowns : gmap string Z;
  any_fired : bool;
  metrics : JobMetrics.t;
  log : list log_entry
}.

(** The test of lines 413-417: the trigger fired, has a cooldown, a last fire
    is stored for its key and less than the cooldown has elapsed. *)
Definition in_cooldown (cds : gmap string Z) (key : string) (now : Z)
  (tr : trigger) (fired : bool) : bool :=
  fired && (0 <? cooldown_ms tr) &&
  match cds !! key with
  | Some last_fire =>
      Qlt_bool (elapsed_ms now last_fire) (inject_Z (cooldown_ms tr))
  | None => false
  end.

(** Lines 411-426 for one trigger whose operator gave [fired]. *)
Definition apply_cooldown (table_id : string) (now : Z) (tr : trigger)
  (fired : bool) (st : eval_state) : eval_state :=
  let cooldown_key := cooldown_key table_id (field tr) in
  let suppressed := in_cooldown (cooldowns st) cooldown_key now tr fired in
  let m1 := if suppressed then JobMetrics.record_trigger true true (metrics st)
            else metrics st in
  let fired' := if suppressed then false else fired in
  if fired' then
    mk_eval (<[cooldown_key := now]> (cooldowns st)) true
      (JobMetrics.record_trigger true false m1)
      (log st ++ [mk_entry cooldown_key now (cooldown_ms tr) fired Fired])
  else
    mk_eval (cooldowns st) (any_fired st)
      (JobMetrics.record_trigger false false m1)
      (log st ++ [mk_entry cooldown_key now (cooldown_ms tr) fired
                    (if suppressed then Suppressed else NotFired)]).

(** The body of the [for] loop, lines 366-426; [inr] carries an exception
    together with the state reached when it was raised. *)
Definition eval_trigger (table_id : string) (values last_values : values_t)
  (now : Z) (tr : trigger) (st : eval_state) : eval_state + eval_state * string :=
  match values !! field tr with
  | None => inl st
  | Some new_val =>
      let old_val := default VNone (last_values !! field tr) in
      match raw_fired tr new_val old_val with
      | Raise e => inr (st, e)
      | Ret fired => inl (apply_cooldown table_id now tr fired st)
      end
  end.

Fixpoint eval_loop (table_id : string) (values last_values : values_t)
  (now : Z) (triggers : list trigger) (st : eval_state)
  : eval_state + eval_state * string :=
  match triggers with
  | [] => inl st
  | tr :: rest =>
      match eval_trigger table_id values last_values now tr st with
      | inl st' => eval_loop table_id values last_values now rest st'
      | inr x => inr x
      end
  end.

Record eval_result : Type := mk_result {
  result : outcome bool;
  self' : t;
  metrics' : JobMetrics.t;
  log' : list log_entry
}.

(** [self._job_last_values.get(job_id, {}).get(table_id, {})], line 359. *)
Definition last_values_of (self : t) (job_id table_id : string) : values_t :=
  default ∅ (default ∅ (_job_last_values self !! job_id) !! table_id).

(** [_evaluate_triggers], lines 346-433; [now] is the reading of
    [datetime.utcnow()] at line 361.  [cooldowns] is the job's own dictionary
    when the job has one, so what the loop stores in it stays stored, also
    when the evaluation raises; otherwise it is a temporary. *)
Definition _evaluate_triggers (self : t) (job_id table_id : string)
  (values : values_t) (triggers : list trigger) (m : JobMetrics.t) (now : Z)
  : eval_result :=
  let last_values := last_values_of self job_id table_id in
  let cds := default ∅ (_job_cooldowns self !! job_id) in
  let keep (st : eval_state) : gmap string (gmap string Z) :=
    match _job_cooldowns self !! job_id with
    | Some _ => <[job_id := cooldowns st]> (_job_cooldowns self)
    | None => _job_cooldowns self
    end in
  match eval_loop table_id values last_values now triggers
          (mk_eval cds false m []) with
  | inr (st, e) =>
      mk_result (Raise e) (mk (_job_last_values self) (keep st))
        (metrics st) (log st)
  | inl st =>
      let per_table := default ∅ (_job_last_values self !! job_id) in
      mk_result (Ret (any_fired st))
        (mk (<[job_id := <[table_id := values]> per_table]>
               (_job_last_values self))
            (keep st))
        (metrics st) (log st)
  end.



End JobExecutor.

(** ** services/job_executor.py: the worker loop *)

(** What the worker calls outside itself: the two clocks, the two callbacks
    of [start_job] and the interruptible sleep.  [W] is the state of the
    world they act on. *)
Class Callbacks (W : Type) : Type := {
  perf_counter : W -> Q * W;
  utcnow : W -> Z * W;
  read_callback : string -> W -> outcome (option values_t) * W;
  write_callback : string -> list values_t -> W -> outcome bool * W;
  wait : Q -> W -> W
}.

Module Worker.

(** The job configuration dictionary of [_build_job_config]. *)
Record job_config : Type := mk_config {
  job_type : string;
  interval_ms : Z;
  table_ids : list string;
  triggers : list JobExecutor.trigger;
  batch_size : Z
}.

(** Calls recorded while the loop runs: a row appended to a buffer
    (line 311) and a call of the write callback (lines 316 and 340). *)
Inductive event : Type :=
| EvEnqueue (table_id : string) (row : values_t)
| EvWrite (table_id : string) (rows : list values_t).

Record state (W : Type) : Type := mk {
  world : W;
  self : JobExecutor.t;
  metrics : JobMetrics.t;
  batch_buffer : gmap string (list values_t);
  trace : list event
}.
Arguments mk {W}.
Arguments world {W}.
Arguments self {W}.
Arguments metrics {W}.
Arguments batch_buffer {W}.
Arguments trace {W}.

Definition enqueued (tr : list event) : list values_t :=
  omap (fun e => match e with EvEnqueue _ row => Some row | _ => None end) tr.

Definition write_calls (tr : list event) : list (list values_t) :=
  omap (fun e => match e with EvWrite _ rows => Some rows | _ => None end) tr.

Section Loop.

Context {W : Type} `{Callbacks W}.

Variable job_id : string.
Variable cfg : job_config.

(** The [except Exception] clause, lines 325-328. *)
Definition on_exception (e : string) (st : state W) : state W :=
  let '(now, w) := utcnow (world st) in
  mk w (self st)
    (JobMetrics.record_read 0 0 false
       (JobMetrics.record_error now "LOOP_ERROR" e (metrics st)))
    (batch_buffer st) (trace st).

(** Lines 308-323: the row is stamped and appended to the table's buffer; a
    full buffer is handed to the write callback and then replaced by an
    empty one.  The buffer is still the full one when the callback raises.
    [table_id] is one of [table_ids], so [batch_buffer] has its key. *)
Definition enqueue (table_id : string) (values : values_t) (st : state W)
  : state W :=
  let '(ts, w1) := utcnow (world st) in
  let row := <["timestamp_utc" := VTime ts]> values in
  let buffer := default [] (batch_buffer st !! table_id) ++ [row] in
  let bb := <[table_id := buffer]> (batch_buffer st) in
  let tr1 := trace st ++ [EvEnqueue table_id row] in
  if batch_size cfg <=? Z.of_nat (length buffer) then
    let '(write_start, w2) := perf_counter w1 in
    let '(res, w3) := write_callback table_id buffer w2 in
    let tr2 := tr1 ++ [EvWrite table_id buffer] in
    match res with
    | Raise e => on_exception e (mk w3 (self st) (metrics st) bb tr2)
    | Ret success =>
        let '(t, w4) := perf_counter w3 in
        let write_latency := ((t - write_start) * 1000)%Q in
        let rows := Z.of_nat (length buffer) in
        let '(m, w5) :=
          if success then
            let '(now, w5) := utcnow w4 in
            (JobMetrics.record_write now write_latency rows true (metrics st), w5)
          else
            (JobMetrics.record_write 0 write_latency rows false (metrics st), w4) in
        mk w5 (self st) m (<[table_id := []]> bb) tr2
    end
  else mk w1 (self st) (metrics st) bb tr1.

(** Lines 301-306: [should_write], with the executor and metrics as they are
    after the evaluation. *)
Definition should_write (table_id : string) (values : values_t) (st : state W)
  : outcome bool * state W :=
  if String.eqb (job_type cfg) "continuous" then (Ret true, st)
  else
    let '(now, w) := utcnow (world st) in
    let r := JobExecutor._evaluate_triggers (self st) job_id table_id values
               (triggers cfg) (metrics st) now in
    (JobExecutor.result r,
     mk w (JobExecutor.self' r) (JobExecutor.metrics' r)
       (batch_buffer st) (trace st)).

(** The body of [for table_id in table_ids], lines 290-328. *)
Definition process_table (st : state W) (table_id : string) : state W :=
  let '(read_start, w1) := perf_counter (world st) in
  let '(r, w2) := read_callback table_id w1 in
  let st2 := mk w2 (self st) (metrics st) (batch_buffer st) (trace st) in
  match r with
  | Raise e => on_exception e st2
  | Ret values =>
      let '(t, w3) := perf_counter w2 in
      let read_latency := ((t - read_start) * 1000)%Q in
      let '(now, w4) := utcnow w3 in
      let st4 := mk w4 (self st)
                   (JobMetrics.record_read now read_latency true (metrics st))
                   (batch_buffer st) (trace st) in
      match values with
      | None => st4
      | Some values =>
          match should_write table_id values st4 with
          | (Raise e, st5) => on_exception e st5
          | (Ret false, st5) => st5
          | (Ret true, st5) => enqueue table_id values st5
          end
      end
  end.

(** One pass of the [while] loop, lines 287-334. *)
Definition iteration (st : state W) : state W :=
  let '(loop_start, w) := perf_counter (world st) in
  let st1 := foldl process_table
               (mk w (self st) (metrics st) (batch_buffer st) (trace st))
               (table_ids cfg) in
  let '(t, w') := perf_counter (world st1) in
  let interval_sec := (inject_Z (interval_ms cfg) / 1000)%Q in
  let sleep_time := Qmax 0 (interval_sec - (t - loop_start)) in
  mk (if Qlt_bool 0 sleep_time then wait sleep_time w' else w')
    (self st1) (metrics st1) (batch_buffer st1) (trace st1).

(** The keys of [{tid: [] for tid in table_ids}] in insertion order. *)
Fixpoint dict_keys (seen : list string) (tids : list string) : list string :=
  match tids with
  | [] => []
  | tid :: rest =>
      if bool_decide (tid ∈ seen) then dict_keys seen rest
      else tid :: dict_keys (tid :: seen) rest
  end.

(** The flush on stop, lines 336-342: every non-empty buffer is written
    once; the result is not looked at and an exception is only logged. *)
Definition flush_table (st : state W) (table_id : string) : state W :=
  match default [] (batch_buffer st !! table_id) with
  | [] => st
  | buffer =>
      let '(_, w) := write_callback table_id buffer (world st) in
      mk w (self st) (metrics st) (batch_buffer st)
        (trace st ++ [EvWrite table_id buffer])
  end.

Definition flush (st : state W) : state W :=
  foldl flush_table st (dict_keys [] (table_ids cfg)).

(** Lines 268-284: the state the loop starts in. *)
Definition init (w : W) (ex : JobExecutor.t) (m : JobMetrics.t) : state W :=
  let ex' :=
    if String.eqb (job_type cfg) "trigger" then
      JobExecutor.mk (<[job_id := ∅]> (JobExecutor._job_last_values ex))
        (<[job_id := ∅]> (JobExecutor._job_cooldowns ex))
    else ex in
  mk w ex' m (list_to_map ((fun tid => (tid, [])) <$> table_ids cfg)) [].

(** The state after [n] passes of the [while] loop: the stop event is seen
    set when the condition is tested for the [n+1]-th time. *)
Fixpoint iterate (n : nat) (st : state W) : state W :=
  match n with
  | O => st
  | S n' => iterate n' (iteration st)
  end.

(** [_run_job_loop], lines 259-344, for a stop observed after [n] passes. *)
Definition _run_job_loop (n : nat) (w : W) (ex : JobExecutor.t)
  (m : JobMetrics.t) : state W :=
  flush (iterate n (init w ex m)).

End Loop.

End Worker.

(** ** views/jobs.py: the write callback *)

Module JobViewSet.

(** What the callback reads of a [DeviceTable] and its [StorageTarget]. *)
Record StorageTarget : Type := mk_target {
  provider : string;
  connection_string : string
}.

Record DeviceTable : Type := mk_table {
  name : string;
  storage_target : option StorageTarget
}.

(** The world of a running job as far as the write callback is concerned:
    the storage singleton and the UTC clock. *)
Record world : Type := mk_world {
  storage : StorageService.t;
  clock : Z
}.

(** [write_callback] of [_create_write_callback], lines 303-317. *)
Definition write_callback (env : StorageService.db_env)
  (tables : gmap string DeviceTable) (table_id : string)
  (rows : list values_t) (w : world) : outcome bool * world :=
  match tables !! table_id with
  | None => (Ret false, w)
  | Some table =>
      match storage_target table with
      | None => (Ret false, w)
      | Some target =>
          let '((success, _, _), s) :=
            StorageService.insert_batch env (clock w) (provider target)
              (connection_string target) (name table) rows (storage w) in
          (Ret success, mk_world s (clock w))
      end
  end.

(** The callbacks [start] hands to [start_job] (lines 76-81), over this
    world.  [read] stands for the read callback, which goes to the devices;
    every reading of a clock advances it. *)
Definition tick (w : world) : world := mk_world (storage w) (clock w + 1).

Definition job_callbacks (env : StorageService.db_env)
  (tables : gmap string DeviceTable)
  (read : string -> world -> outcome (option values_t) * world)
  : Callbacks world :=
  Build_Callbacks world
    (fun w => (Qmake (clock w) 1000000, tick w))
    (fun w => (clock w, tick w))
    read
    (write_callback env tables)
    (fun _ w => w).

End JobViewSet.

(** ** Statements used by the properties *)

(** The last-fire timestamps after a history: every non-suppressed fire
    stores its time under its key, nothing else stores anything. *)
Definition replay_entry (cd : gmap string Z) (e : JobExecutor.log_entry)
  : gmap string Z :=
  match JobExecutor.le_verdict e with
  | JobExecutor.Fired => <[JobExecutor.le_key e := JobExecutor.le_now e]> cd
  | _ => cd
  end.

Definition replay (cd : gmap string Z) (l : list JobExecutor.log_entry)
  : gmap string Z :=
  foldl replay_entry cd l.

Definition is_fired (e : JobExecutor.log_entry) : bool :=
  match JobExecutor.le_verdict e with JobExecutor.Fired => true | _ => false end.

Definition is_suppressed (e : JobExecutor.log_entry) : bool :=
  match JobExecutor.le_verdict e with
  | JobExecutor.Suppressed => true
  | _ => false
  end.

(** An entry judged against the timestamps [cd] stored when it was made:
    it is suppressed only if its operator fired within the cooldown of the
    stored last fire; it is a non-suppressed fire only if its operator fired
    and, for a positive cooldown, at least the cooldown has elapsed since
    the stored last fire; otherwise its operator did not fire. *)
Definition entry_ok (cd : gmap string Z) (e : JobExecutor.log_entry) : Prop :=
  let c := JobExecutor.le_cooldown_ms e in
  match JobExecutor.le_verdict e with
  | JobExecutor.Suppressed =>
      JobExecutor.le_fired e = true /\ 0 < c /\
      exists t0, cd !! JobExecutor.le_key e = Some t0 /\
        (JobExecutor.elapsed_ms (JobExecutor.le_now e) t0 < inject_Z c)%Q
  | JobExecutor.Fired =>
      JobExecutor.le_fired e = true /\
      (0 < c -> forall t0, cd !! JobExecutor.le_key e = Some t0 ->
         (inject_Z c <= JobExecutor.elapsed_ms (JobExecutor.le_now e) t0)%Q)
  | JobExecutor.NotFired => JobExecutor.le_fired e = false
  end.

Fixpoint log_ok (cd : gmap string Z) (l : list JobExecutor.log_entry) : Prop :=
  match l with
  | [] => True
  | e :: l' => entry_ok cd e /\ log_ok (replay_entry cd e) l'
  end.



(** Whether the binary64 index [int(n * 0.95)] is [floor (0.95 * n)]. *)
Definition p95_index_check (n : nat) : bool :=
  match JobMetrics.p95_index n with
  | Ret i => i =? Qfloor ((95 # 100) * inject_Z (Z.of_nat n))
  | Raise _ => false
  end.

Definition count_suppressed (l : list JobExecutor.log_entry) : Z :=
  Z.of_nat (length (List.filter is_suppressed l)).

(** What holds between the state before and the state after some triggers
    of one evaluation, whether the loop ran to its end or was left by an
    exception: the entries [new] were logged, each judged against the
    timestamps stored when it was made; the stored timestamps are the
    replay of [new]; [any_fired] was set by a non-suppressed fire only;
    [triggers_evaluated] grew by one per entry and one more per suppressed
    entry, [triggers_suppressed] by one per suppressed entry. *)
Definition extends (st st' : JobExecutor.eval_state) : Prop :=
  exists new,
    JobExecutor.log st' = JobExecutor.log st ++ new /\
    log_ok (JobExecutor.cooldowns st) new /\
    JobExecutor.cooldowns st' = replay (JobExecutor.cooldowns st) new /\
    JobExecutor.any_fired st'
    = JobExecutor.any_fired st || existsb is_fired new /\
    JobMetrics.triggers_evaluated (JobExecutor.metrics st')
    = JobMetrics.triggers_evaluated (JobExecutor.metrics st)
      + Z.of_nat (length new) + count_suppressed new /\
    JobMetrics.triggers_suppressed (JobExecutor.metrics st')
    = JobMetrics.triggers_suppressed (JobExecutor.metrics st)
      + count_suppressed new.


(** The bytes of a list of registers, high byte then low byte of each. *)
Definition register_bytes (registers : list Z) : list Z :=
  registers ≫= (fun reg => [Z.land (Z.shiftr reg 8) 255; Z.land reg 255]).

(** A list of bytes up to, and without, its first zero byte. *)
Fixpoint until_zero (bytes : list Z) : list Z :=
  match bytes with
  | [] => []
  | b :: rest => if b =? 0 then [] else b :: until_zero rest
  end.

(** Whether an [int] read of the register [v] with scale [1.0] gives the
    signed value of [v]. *)
Definition int_read_check (v : Z) : bool :=
  match JobMetrics.int_of_float
          (SFmul 53 1024
             (JobMetrics.float_of_int (ModbusService._to_signed_int v))
             ModbusClient.float_1_0) with
  | Ret n => n =? ModbusService._to_signed_int v
  | Raise _ => false
  end.

(** [check] on the [count] integers from [z] on. *)
Fixpoint all_from (check : Z -> bool) (count : nat) (z : Z) : bool :=
  match count with
  | O => true
  | S count' => check z && all_from check count' (z + 1)
  end.

(** The four values of [StorageProvider]. *)
Definition known_provider (provider : string) : Prop :=
  provider = "sqlite" \/ provider = "postgres" \/ provider = "mysql" \/
  provider = "mssql".

(** The providers with a true schema. *)
Definition schema_provider (provider : string) : Prop :=
  provider = "postgres" \/ provider = "mssql".

(** The last [n] elements of a list. *)
Definition last_n {A : Type} (n : nat) (l : list A) : list A :=
  drop (length l - n) l.

(** What a sequence of metrics operations has recorded since its last
    reset, oldest first: the errors, the latencies of the successful reads
    and those of the successful writes. *)
Definition recorded_errors (ops : list JobMetrics.op)
  : list JobMetrics.error_entry :=
  foldl (fun acc o =>
           match o with
           | JobMetrics.OpError now c msg => acc ++ [JobMetrics.mk_error c msg now]
           | JobMetrics.OpReset _ => []
           | _ => acc
           end) [] ops.

Definition recorded_reads (ops : list JobMetrics.op) : list Q :=
  foldl (fun acc o =>
           match o with
           | JobMetrics.OpRead _ latency true => acc ++ [latency]
           | JobMetrics.OpReset _ => []
           | _ => acc
           end) [] ops.

Definition recorded_writes (ops : list JobMetrics.op) : list Q :=
  foldl (fun acc o =>
           match o with
           | JobMetrics.OpWrite _ latency _ true => acc ++ [latency]
           | JobMetrics.OpReset _ => []
           | _ => acc
           end) [] ops.

(** The operators that order the new value against the threshold. *)
Definition ordering_operator (op : string) : Prop :=
  op = ">" \/ op = ">=" \/ op = "<" \/ op = "<=".

(** A history entry made by the evaluation of [triggers] on [values] for
    [table_id] at [now]: it carries that time, and the key and cooldown of
    one of the triggers whose field is present. *)
Definition entry_from (table_id : string) (values : values_t)
  (triggers : list JobExecutor.trigger) (now : Z)
  (e : JobExecutor.log_entry) : Prop :=
  JobExecutor.le_now e = now /\
  exists tr, tr ∈ triggers /\
    JobExecutor.le_key e = JobExecutor.cooldown_key table_id (JobExecutor.field tr) /\
    JobExecutor.le_cooldown_ms e = JobExecutor.cooldown_ms tr /\
    is_Some (values !! JobExecutor.field tr).

(** A row as the worker hands it on: it carries [timestamp_utc] and was
    enqueued for the table [table_id] in the trace [tr]. *)
Definition row_ok (tr : list Worker.event) (table_id : string)
  (row : values_t) : Prop :=
  is_Some (row !! "timestamp_utc") /\ Worker.EvEnqueue table_id row ∈ tr.

(** Every buffered row and every row of a write call is such a row, and no
    write call is made with an empty list. *)
Definition rows_inv {W : Type} (st : Worker.state W) : Prop :=
  (forall table_id buffer,
     Worker.batch_buffer st !! table_id = Some buffer ->
     Forall (row_ok (Worker.trace st) table_id) buffer) /\
  (forall table_id rows,
     Worker.EvWrite table_id rows ∈ Worker.trace st ->
     rows <> [] /\ Forall (row_ok (Worker.trace st) table_id) rows).

(** No table has a buffered row. *)
Definition buffers_empty {W : Type} (st : Worker.state W) : Prop :=
  forall table_id, default [] (Worker.batch_buffer st !! table_id) = [].

(** The counters of the metrics that only the worker loop moves. *)
Definition io_counters (m : JobMetrics.t) : Z * Z * Z * Z * Z :=
  (JobMetrics.reads m, JobMetrics.read_errors m, JobMetrics.writes m,
   JobMetrics.write_errors m, JobMetrics.rows_written m).

(** The counters of a running loop against its calls, [m] being the metrics
    the loop started with: writes and written rows are bounded by the write
    calls made and the rows handed to them, write errors by the writes, and
    the rows enqueued, with [k] more to come, by the reads recorded as
    successful and not followed by an error. *)
Definition counted {W : Type} (k : Z) (m : JobMetrics.t) (st : Worker.state W)
  : Prop :=
  let m' := Worker.metrics st in
  let calls := Worker.write_calls (Worker.trace st) in
  0 <= JobMetrics.writes m' - JobMetrics.writes m <= Z.of_nat (length calls) /\
  0 <= JobMetrics.write_errors m' - JobMetrics.write_errors m
    <= JobMetrics.writes m' - JobMetrics.writes m /\
  0 <= JobMetrics.rows_written m' - JobMetrics.rows_written m
    <= Z.of_nat (length (concat calls)) /\
  Z.of_nat (length (Worker.enqueued (Worker.trace st))) + k
  <= (JobMetrics.reads m' - JobMetrics.read_errors m')
     - (JobMetrics.reads m - JobMetrics.read_errors m).

(** ** A sample installation *)

(** One table [T] named [lt_panel] on a SQLite target, read by a callback
    that always yields [power = 230.5] and [status = True]. *)
Module Sample.

Definition env_ok : StorageService.db_env :=
  StorageService.mk_env (fun _ => true) (fun _ => true) (fun _ _ _ => true).


Definition target : JobViewSet.StorageTarget :=
  JobViewSet.mk_target "sqlite" "/data/log.db".

Definition tables : gmap string JobViewSet.DeviceTable :=
  {[ "T" := JobViewSet.mk_table "lt_panel" (Some target) ]}.

Definition reading : values_t :=
  {[ "power" := VFloat (461 # 2); "status" := VBool true ]}.

Definition read (table_id : string) (w : JobViewSet.world)
  : outcome (option values_t) * JobViewSet.world :=
  (Ret (Some reading), w).

Definition engine : StorageService.Engine :=
  StorageService.mk_engine "sqlite:////data/log.db".

(** The world with the engine of the target already pooled. *)
Definition w0 : JobViewSet.world :=
  JobViewSet.mk_world
    (StorageService.mk {[ "sqlite:/data/log.db" := engine ]} []) 0.

Definition ex0 : JobExecutor.t := JobExecutor.mk ∅ ∅.

(** A continuous job on [T] with the given batch size. *)
Definition cfg (batch_size : Z) : Worker.job_config :=
  Worker.mk_config "continuous" 1000 ["T"] [] batch_size.

End Sample.

(** * Properties *)

(** ** Modbus address convention *)

Section ParseAddress.
Import ModbusService.

(** C3. For every integer address [a], [_parse_address] returns [(coil, a)]
    on [0..9999], [(discrete, a - 10001)] on [10001..19999],
    [(input, a - 30001)] on [30001..39999], [(holding, a - 40001)] on
    [40001..49999], and [(holding, a)] for every other [a]: 10000,
    20000..30000, 40000, anything above 49999 and every negative value. *)
Theorem parse_address_convention (a : Z) :
  (0 <= a <= 9999 -> _parse_address a = (coil, a)) /\
  (10001 <= a <= 19999 -> _parse_address a = (discrete, a - 10001)) /\
  (30001 <= a <= 39999 -> _parse_address a = (input, a - 30001)) /\
  (40001 <= a <= 49999 -> _parse_address a = (holding, a - 40001)) /\
  (a < 0 \/ a = 10000 \/ 20000 <= a <= 30000 \/ a = 40000 \/ 49999 < a ->
   _parse_address a = (holding, a)).
Proof.
  unfold _parse_address.
  repeat split; intros Ha;
    repeat match goal with
      | |- context [?x <=? ?y] => destruct (Z.leb_spec x y)
      end; simpl; try reflexivity; try lia.
Qed.

Lemma parse_address_convention_witness :
  _parse_address 17 = (coil, 17) /\
  _parse_address 10005 = (discrete, 4) /\
  _parse_address 30001 = (input, 0) /\
  _parse_address 49999 = (holding, 9998) /\
  _parse_address 10000 = (holding, 10000) /\
  _parse_address (-3) = (holding, -3).
Proof.
  split; [| split; [| split; [| split; [| split]]]].
  - apply (proj1 (parse_address_convention 17)). lia.
  - apply (proj1 (proj2 (parse_address_convention 10005))). lia.
  - apply (proj1 (proj2 (proj2 (parse_address_convention 30001)))). lia.
  - apply (proj1 (proj2 (proj2 (proj2 (parse_address_convention 49999))))). lia.
  - apply (proj2 (proj2 (proj2 (proj2 (parse_address_convention 10000))))). lia.
  - apply (proj2 (proj2 (proj2 (proj2 (parse_address_convention (-3)))))). lia.
Defined.

End ParseAddress.

(** ** Float byte orders *)

Section ByteOrders.
Import ModbusService.

Lemma pack_H_in_range (e : endianness) (v : Z) :
  0 <= v < 65536 ->
  pack_H e v = Ret (match e with
                    | BigEndian => [hi v; lo v]
                    | LittleEndian => [lo v; hi v]
                    end).
Proof.
  intros Hv. unfold pack_H.
  destruct (Z.leb_spec 0 v), (Z.leb_spec v 65535); try lia.
  destruct e; reflexivity.
Qed.

Lemma hi_lo_bytes (v : Z) :
  0 <= v < 65536 -> 0 <= hi v < 256 /\ 0 <= lo v < 256 /\ v = 256 * hi v + lo v.
Proof.
  intros Hv. unfold hi, lo.
  rewrite Z.shiftr_div_pow2 by lia.
  change 255 with (Z.ones 8). rewrite Z.land_ones by lia.
  change (2 ^ 8) with 256.
  pose proof (Z.div_mod v 256 ltac:(lia)).
  pose proof (Z.mod_pos_bound v 256 ltac:(lia)).
  repeat split; try lia.
Qed.

(** C4. For 16-bit registers [R1], [R2], the bytes given to the big-endian
    float decoder are [R1_hi R1_lo R2_hi R2_lo] for ABCD,
    [R2_lo R2_hi R1_lo R1_hi] for DCBA, [R2_hi R2_lo R1_hi R1_lo] for BADC
    and [R1_lo R1_hi R2_lo R2_hi] for CDAB; any other byte order string
    gives the ABCD bytes; and [_registers_to_float] decodes exactly these
    bytes. *)
Theorem float_byte_orders (R1 R2 : Z) :
  0 <= R1 < 65536 -> 0 <= R2 < 65536 ->
  bytes_data R1 R2 "ABCD" = Ret [hi R1; lo R1; hi R2; lo R2] /\
  bytes_data R1 R2 "DCBA" = Ret [lo R2; hi R2; lo R1; hi R1] /\
  bytes_data R1 R2 "BADC" = Ret [hi R2; lo R2; hi R1; lo R1] /\
  bytes_data R1 R2 "CDAB" = Ret [lo R1; hi R1; lo R2; hi R2] /\
  (forall bo : string,
      bo <> "ABCD" -> bo <> "DCBA" -> bo <> "BADC" -> bo <> "CDAB" ->
      bytes_data R1 R2 bo = Ret [hi R1; lo R1; hi R2; lo R2]) /\
  (forall (bo : string) (rest : list Z),
      exists b, bytes_data R1 R2 bo = Ret b /\
                _registers_to_float (R1 :: R2 :: rest) bo = unpack_f b) /\
  (0 <= hi R1 < 256 /\ 0 <= lo R1 < 256 /\ R1 = 256 * hi R1 + lo R1) /\
  (0 <= hi R2 < 256 /\ 0 <= lo R2 < 256 /\ R2 = 256 * hi R2 + lo R2).
Proof.
  intros H1 H2.
  assert (Hbe : pack_HH BigEndian R1 R2 = Ret [hi R1; lo R1; hi R2; lo R2])
    by (unfold pack_HH; rewrite !pack_H_in_range by lia; reflexivity).
  assert (Hle : pack_HH LittleEndian R1 R2 = Ret [lo R1; hi R1; lo R2; hi R2])
    by (unfold pack_HH; rewrite !pack_H_in_range by lia; reflexivity).
  assert (Hbe' : pack_HH BigEndian R2 R1 = Ret [hi R2; lo R2; hi R1; lo R1])
    by (unfold pack_HH; rewrite !pack_H_in_range by lia; reflexivity).
  assert (Hle' : pack_HH LittleEndian R2 R1 = Ret [lo R2; hi R2; lo R1; hi R1])
    by (unfold pack_HH; rewrite !pack_H_in_range by lia; reflexivity).
  split; [exact Hbe |]. split; [exact Hle' |]. split; [exact Hbe' |].
  split; [exact Hle |]. split; [| split; [| split]].
  - intros bo Ha Hd Hb Hc. unfold bytes_data.
    apply String.eqb_neq in Ha, Hd, Hb, Hc. rewrite Ha, Hd, Hb, Hc. exact Hbe.
  - intros bo rest. unfold _registers_to_float.
    assert (Hex : exists b, bytes_data R1 R2 bo = Ret b).
    { unfold bytes_data.
      repeat match goal with
        | |- context [String.eqb ?x ?y] => destruct (String.eqb x y)
        end; eauto. }
    destruct Hex as [b Hb]. exists b. rewrite Hb. split; reflexivity.
  - apply hi_lo_bytes. exact H1.
  - apply hi_lo_bytes. exact H2.
Qed.

Lemma float_byte_orders_witness :
  bytes_data 16457 4059 "BADC" = Ret [15; 219; 64; 73] /\
  _registers_to_float [16457; 4059] "ABCD"
  = Ret (S754_finite false 13176795 (-22)).
Proof.
  destruct (float_byte_orders 16457 4059 ltac:(lia) ltac:(lia))
    as (_ & _ & Hbadc & _).
  split; [exact Hbadc | reflexivity].
Defined.

End ByteOrders.

(** ** Mapping health *)

Section Health.
Import MappingHealth.

Lemma health_cases (S M : gset string) :
  (health S M = MAPPED <-> S ≠ ∅ /\ S ⊆ M) /\
  (health S M = PARTIAL <-> S ≠ ∅ /\ M ≠ ∅ /\ ¬ S ⊆ M) /\
  (health S M = UNMAPPED <-> S = ∅ \/ M = ∅).
Proof.
  unfold health. repeat case_bool_decide; repeat split;
    try discriminate; try tauto; try (intros [? | ?]; set_solver);
    try (intros; exfalso; set_solver); try (intros _; tauto).
Qed.

(** C7, as the code has it. After any mapping mutation the recomputed
    [mapping_health] is [MAPPED] iff the schema has at least one field and
    the mapping field keys cover all schema keys; [PARTIAL] iff the schema
    has at least one field and the mapping field keys are non-empty but do
    not cover all schema keys; [UNMAPPED] iff the schema has no fields or
    there are no mappings. A schema without fields is always [UNMAPPED]. *)
Theorem mapping_health_after_mutation (mu : mutation) (table : DeviceTable) :
  let table' := mutate mu table in
  let S : gset string := list_to_set (schema_keys table') in
  let M : gset string := list_to_set (mapping_keys table') in
  (mapping_health table' = MAPPED <-> S ≠ ∅ /\ S ⊆ M) /\
  (mapping_health table' = PARTIAL <-> S ≠ ∅ /\ M ≠ ∅ /\ ¬ S ⊆ M) /\
  (mapping_health table' = UNMAPPED <-> S = ∅ \/ M = ∅).
Proof.
  intros table' S M. apply health_cases.
Qed.

(** C7 as stated fails on a schema without fields: the mapping keys are a
    superset of the (empty) set of schema keys, yet the health is not
    [MAPPED]. *)
Lemma mapping_health_empty_schema :
  let table' := mutate (Create "power") (mk_table [] [] UNMAPPED) in
  let S : gset string := list_to_set (schema_keys table') in
  let M : gset string := list_to_set (mapping_keys table') in
  ~ (mapping_health table' = MAPPED <-> S ⊆ M).
Proof.
  intros table' S M [_ Hc].
  assert (Hs : S ⊆ M) by (subst S M; simpl; set_solver).
  specialize (Hc Hs). vm_compute in Hc. discriminate.
Qed.

End Health.

(** ** Latency summary *)

Section Summary.
Import JobMetrics.

Lemma deque_append_length (d : list Q) (x : Q) :
  (length (deque_append d x) <= maxlen)%nat.
Proof.
  unfold deque_append. rewrite length_drop, length_app. simpl. lia.
Qed.

Lemma apply_op_windows (m : t) (o : op) :
  (length (read_latencies m) <= maxlen)%nat ->
  (length (write_latencies m) <= maxlen)%nat ->
  (length (read_latencies (apply_op m o)) <= maxlen)%nat /\
  (length (write_latencies (apply_op m o)) <= maxlen)%nat.
Proof.
  intros Hr Hw.
  destruct o as [now l [] | now l r [] | f s | now c msg | now]; simpl;
    auto using deque_append_length; unfold maxlen; simpl; lia.
Qed.

(** The two deques of a metrics object never hold more than 1000 samples. *)
Lemma run_windows (jid : string) (ops : list op) :
  (length (read_latencies (run jid ops)) <= maxlen)%nat /\
  (length (write_latencies (run jid ops)) <= maxlen)%nat.
Proof.
  unfold run.
  assert (H0 : (length (read_latencies (new jid)) <= maxlen)%nat /\
               (length (write_latencies (new jid)) <= maxlen)%nat)
    by (simpl; unfold maxlen; lia).
  revert H0. generalize (new jid). induction ops as [| o ops IH]; intros m Hm.
  - exact Hm.
  - simpl. apply IH. destruct Hm. apply apply_op_windows; assumption.
Qed.

(** Every list of at most 1000 samples is the read window of some metrics
    object: the one that recorded these reads. *)
Lemma window_reachable (jid : string) (w : list Q) :
  (length w <= maxlen)%nat ->
  read_latencies (run jid ((fun x => OpRead 0 x true) <$> w)) = w.
Proof.
  unfold run. induction w as [| x w IH] using rev_ind; intros Hlen.
  - reflexivity.
  - rewrite length_app in Hlen. simpl in Hlen.
    rewrite fmap_app, fold_left_app. simpl.
    rewrite IH by lia. unfold deque_append.
    replace (length (w ++ [x]) - maxlen)%nat with 0%nat
      by (rewrite length_app; simpl; lia).
    reflexivity.
Qed.

Lemma insert_sorted_perm (x : Q) (l : list Q) : insert_sorted x l ≡ₚ x :: l.
Proof.
  induction l as [| y l IH]; simpl; [reflexivity |].
  destruct (Qle_bool x y); [reflexivity |].
  rewrite IH. apply perm_swap.
Qed.

Lemma sorted_perm (l : list Q) : sorted l ≡ₚ l.
Proof.
  induction l as [| x l IH]; simpl; [reflexivity |].
  unfold sorted in *. simpl. rewrite insert_sorted_perm, IH. reflexivity.
Qed.

Lemma sorted_length (l : list Q) : length (sorted l) = length l.
Proof. apply Permutation_length, sorted_perm. Qed.

Lemma insert_sorted_sorted (x : Q) (l : list Q) :
  StronglySorted Qle l -> StronglySorted Qle (insert_sorted x l).
Proof.
  induction 1 as [| y l Hs IH Hy]; simpl.
  - constructor; constructor.
  - destruct (Qle_bool x y) eqn:Hxy.
    + apply Qle_bool_iff in Hxy.
      constructor; [constructor; assumption |].
      constructor; [assumption |].
      eapply Forall_impl; [exact Hy |].
      intros z Hz. eapply Qle_trans; eassumption.
    + constructor; [assumption |].
      apply (Permutation_Forall (symmetry (insert_sorted_perm x l))).
      constructor; [| assumption].
      apply Qlt_le_weak, Qnot_le_lt. intros Hle.
      apply Qle_bool_iff in Hle. congruence.
Qed.

(** [sorted] returns its argument in ascending order. *)
Lemma sorted_sorted (l : list Q) : StronglySorted Qle (sorted l).
Proof.
  induction l as [| x l IH]; [constructor |].
  unfold sorted in *. simpl. apply insert_sorted_sorted, IH.
Qed.

(** On every window a deque can hold, the binary64 product [len * 0.95]
    truncates to the exact [floor (0.95 * len)]. *)
Lemma p95_index_exact (n : nat) :
  (n <= maxlen)%nat ->
  p95_index n = Ret (Qfloor ((95 # 100) * inject_Z (Z.of_nat n))).
Proof.
  intros Hn.
  assert (Hall : forallb p95_index_check (seq 0 (S maxlen)) = true)
    by (vm_compute; reflexivity).
  rewrite forallb_forall in Hall.
  assert (Hin : In n (seq 0 (S maxlen))) by (apply in_seq; lia).
  specialize (Hall n Hin). unfold p95_index_check in Hall.
  destruct (p95_index n) as [i |]; [| discriminate].
  apply Z.eqb_eq in Hall. congruence.
Qed.

Lemma Qfloor_095 (n : nat) :
  Qfloor ((95 # 100) * inject_Z (Z.of_nat n)) = 95 * Z.of_nat n / 100.
Proof.
  unfold Qfloor, Qmult, inject_Z. simpl Qnum. simpl Qden.
  rewrite Pos.mul_1_r. reflexivity.
Qed.

Lemma py_index_in_range (l : list Q) (i : Z) (x : Q) :
  0 <= i -> l !! Z.to_nat i = Some x -> py_index l i = Ret x.
Proof.
  intros Hi Hx. unfold py_index.
  destruct (Z.ltb_spec i 0) as [? | _]; [lia |].
  destruct (Z.ltb_spec i 0) as [? | _]; [lia |].
  rewrite Hx. reflexivity.
Qed.

Lemma p95_latency_window (w : list Q) :
  (length w <= maxlen)%nat ->
  exists p95, p95_latency w = Ret p95 /\
    ((20 < length w)%nat ->
     exists x, p95 = Some x /\
       sorted w !! Z.to_nat (Qfloor ((95 # 100) * inject_Z (Z.of_nat (length w))))
       = Some x) /\
    ((length w <= 20)%nat -> p95 = None).
Proof.
  intros Hlen. unfold p95_latency.
  destruct (Nat.ltb_spec 20 (length w)) as [Hgt | Hle].
  - rewrite (p95_index_exact _ Hlen).
    remember (Qfloor ((95 # 100) * inject_Z (Z.of_nat (length w)))) as i eqn:Ei.
    assert (Hi : 0 <= i < Z.of_nat (length w)).
    { subst i. rewrite Qfloor_095. split.
      - apply Z.div_pos; lia.
      - apply Z.div_lt_upper_bound; lia. }
    destruct (sorted w !! Z.to_nat i) as [x |] eqn:Hx.
    + exists (Some x). cbn [bind].
      rewrite (py_index_in_range _ _ x) by (lia || assumption).
      split; [reflexivity |]. split; [eauto | lia].
    + apply lookup_ge_None in Hx. rewrite sorted_length in Hx. lia.
  - exists None. split; [reflexivity |]. split; [lia | reflexivity].
Qed.



End Summary.

(** ** Trigger evaluation *)

Section Triggers.
Import JobExecutor.

Lemma Qlt_bool_iff (x y : Q) : Qlt_bool x y = true <-> (x < y)%Q.
Proof.
  unfold Qlt_bool. rewrite negb_true_iff. split.
  - intros Hb. apply Qnot_le_lt. intros Hle.
    apply Qle_bool_iff in Hle. congruence.
  - intros Hlt. destruct (Qle_bool y x) eqn:Hb; [| reflexivity].
    apply Qle_bool_iff in Hb. exfalso. exact (Qlt_not_le _ _ Hlt Hb).
Qed.

Lemma Qlt_bool_false_iff (x y : Q) : Qlt_bool x y = false <-> (y <= x)%Q.
Proof.
  unfold Qlt_bool. rewrite negb_false_iff. apply Qle_bool_iff.
Qed.

(** What the [change] operator computes: nothing fires without a previous
    value; a numeric new value fires iff [|new - old| > deadband]; for a
    non-numeric new value the boolean [new != old] is itself compared with
    the deadband, as the number 1 or 0. *)
Lemma change_semantics (tr : trigger) (new old : pyval) :
  operator tr = "change" ->
  (old = VNone -> raw_fired tr new old = Ret false) /\
  (forall x y, as_num new = Some x -> as_num old = Some y ->
     raw_fired tr new old = Ret (Qlt_bool (deadband tr) (Qabs (x - y)))) /\
  (old <> VNone -> is_int_or_float new = false ->
   raw_fired tr new old
   = Ret (Qlt_bool (deadband tr) (if py_ne new old then 1 else 0))).
Proof.
  intros Hop. unfold raw_fired. rewrite Hop. simpl String.eqb. cbv iota.
  split; [| split].
  - intros ->. reflexivity.
  - intros x y Hx Hy.
    assert (Hnew : is_int_or_float new = true)
      by (destruct new; simpl in Hx; try discriminate; reflexivity).
    destruct old; simpl in Hy; try discriminate;
      rewrite Hnew; unfold py_abs_sub; rewrite Hx; simpl; inversion Hy;
        reflexivity.
  - intros Hold Hnew. destruct old; try congruence; rewrite Hnew; reflexivity.
Qed.

(** C1 at a failing input. A [change] trigger with deadband 1 on the string
    field [state]: the previous value is ["RUN"], the new one ["STOP"], so
    [new != old], yet the trigger does not fire and the evaluation returns
    [False]; with deadband 0 the same change fires. The deadband decides
    for a non-numeric value. *)
Theorem change_non_numeric_deadband :
  let old := VStr "RUN" in
  let new := VStr "STOP" in
  let self := mk {[ "J" := {[ "T" := {[ "state" := old ]} ]} ]} {[ "J" := ∅ ]} in
  let eval deadband :=
    _evaluate_triggers self "J" "T" {[ "state" := new ]}
      [mk_trigger "state" "change" None deadband 0] (JobMetrics.new "J") 0 in
  py_ne new old = true /\
  is_int_or_float new = false /\
  result (eval 1%Q) = Ret false /\
  result (eval 0%Q) = Ret true.
Proof.
  vm_compute. repeat split; reflexivity.
Qed.

Lemma apply_cooldown_evaluated (table_id : string) (now : Z) (tr : trigger)
  (fired : bool) (st : eval_state) :
  JobMetrics.triggers_evaluated (metrics (apply_cooldown table_id now tr fired st))
  = JobMetrics.triggers_evaluated (metrics st)
    + (if in_cooldown (cooldowns st) (cooldown_key table_id (field tr)) now tr fired
       then 2 else 1).
Proof.
  unfold apply_cooldown.
  destruct (in_cooldown _ _ _ _ _); [simpl; lia |].
  destruct fired; simpl; lia.
Qed.

(** C6 at a failing input. One trigger [temp > 0] with a cooldown of
    1000 ms whose last fire was 200 ms ago: the fire is suppressed, the
    evaluation returns [False], and this single trigger raised
    [triggers_evaluated] from 0 to 2. *)
Theorem suppressed_trigger_evaluated_twice :
  let self := mk ∅ {[ "J" := {[ "T:temp" := 0 ]} ]} in
  let r := _evaluate_triggers self "J" "T" {[ "temp" := VFloat 5 ]}
             [mk_trigger "temp" ">" (Some 0%Q) 0 1000]
             (JobMetrics.new "J") 200000 in
  result r = Ret false /\
  length (log' r) = 1%nat /\
  is_suppressed <$> log' r = [true] /\
  JobMetrics.triggers_evaluated (metrics' r) = 2 /\
  JobMetrics.triggers_suppressed (metrics' r) = 1 /\
  JobMetrics.triggers_fired (metrics' r) = 1.
Proof.
  vm_compute. repeat split; reflexivity.
Qed.

Lemma evaluate_raises_keeps_last_values (self : t) (job_id table_id : string)
  (values : values_t) (triggers : list trigger) (m : JobMetrics.t) (now : Z) :
  let r := _evaluate_triggers self job_id table_id values triggers m now in
  ~ returns (result r) -> _job_last_values (self' r) = _job_last_values self.
Proof.
  intros r Hr. subst r. unfold _evaluate_triggers in *.
  destruct (eval_loop _ _ _ _ _ _) as [st | [st e]]; simpl in *.
  - tauto.
  - reflexivity.
Qed.




End Triggers.

(** ** Cooldown *)

Section Cooldown.
Import JobExecutor.

Lemma replay_app (cd : gmap string Z) (l1 l2 : list log_entry) :
  replay cd (l1 ++ l2) = replay (replay cd l1) l2.
Proof. unfold replay. apply foldl_app. Qed.

Lemma log_ok_app (cd : gmap string Z) (l1 l2 : list log_entry) :
  log_ok cd (l1 ++ l2) <-> log_ok cd l1 /\ log_ok (replay cd l1) l2.
Proof.
  revert cd. induction l1 as [| e l1 IH]; intros cd; simpl.
  - tauto.
  - rewrite IH. unfold replay. simpl. tauto.
Qed.


Lemma existsb_is_fired_app (l1 l2 : list log_entry) :
  existsb is_fired (l1 ++ l2) = existsb is_fired l1 || existsb is_fired l2.
Proof. apply existsb_app. Qed.

(** One trigger through the cooldown check: one entry is logged, judged
    against the timestamps stored before it; the stored timestamps change
    only by a non-suppressed fire, and only such a fire sets [any_fired]. *)
Lemma apply_cooldown_entry (table_id : string) (now : Z) (tr : trigger)
  (fired : bool) (st : eval_state) :
  exists e,
    log (apply_cooldown table_id now tr fired st) = log st ++ [e] /\
    le_key e = cooldown_key table_id (field tr) /\
    le_now e = now /\ le_cooldown_ms e = cooldown_ms tr /\ le_fired e = fired /\
    entry_ok (cooldowns st) e /\
    cooldowns (apply_cooldown table_id now tr fired st)
    = replay_entry (cooldowns st) e /\
    any_fired (apply_cooldown table_id now tr fired st)
    = any_fired st || is_fired e /\
    JobMetrics.triggers_evaluated (metrics (apply_cooldown table_id now tr fired st))
    = JobMetrics.triggers_evaluated (metrics st) + 1 + count_suppressed [e] /\
    JobMetrics.triggers_suppressed (metrics (apply_cooldown table_id now tr fired st))
    = JobMetrics.triggers_suppressed (metrics st) + count_suppressed [e].
Proof.
  unfold apply_cooldown.
  set (key := cooldown_key table_id (field tr)).
  destruct (in_cooldown (cooldowns st) key now tr fired) eqn:Hcd.
  - (* suppressed *)
    eexists. split; [reflexivity |]. simpl.
    do 4 (split; [reflexivity |]).
    split; [| split; [reflexivity |];
              split; [rewrite orb_false_r; reflexivity |];
              split; vm_compute (count_suppressed _); simpl; lia].
    unfold entry_ok. simpl. unfold in_cooldown in Hcd.
    apply andb_true_iff in Hcd as [Hcd Hel].
    apply andb_true_iff in Hcd as [Hf Hc].
    apply Z.ltb_lt in Hc.
    destruct (cooldowns st !! key) as [t0 |]; [| discriminate].
    apply Qlt_bool_iff in Hel. eauto.
  - destruct fired.
    + (* non-suppressed fire *)
      eexists. split; [reflexivity |]. simpl.
      do 4 (split; [reflexivity |]).
      split; [| split; [reflexivity |];
                split; [rewrite orb_true_r; reflexivity |];
                split; vm_compute (count_suppressed _); simpl; lia].
      unfold entry_ok. simpl. split; [reflexivity |].
      intros Hc t0 Ht0. unfold in_cooldown in Hcd. rewrite Ht0 in Hcd.
      apply Z.ltb_lt in Hc. rewrite Hc in Hcd. simpl in Hcd.
      apply Qlt_bool_false_iff in Hcd. exact Hcd.
    + (* the operator did not fire *)
      eexists. split; [reflexivity |]. simpl.
      do 4 (split; [reflexivity |]).
      split; [| split; [reflexivity |];
                split; [rewrite orb_false_r; reflexivity |];
                split; vm_compute (count_suppressed _); simpl; lia].
      unfold entry_ok. simpl. reflexivity.
Qed.

Lemma count_suppressed_app (l1 l2 : list log_entry) :
  count_suppressed (l1 ++ l2) = count_suppressed l1 + count_suppressed l2.
Proof.
  unfold count_suppressed. rewrite List.filter_app, length_app. lia.
Qed.

Lemma extends_refl (st : eval_state) : extends st st.
Proof.
  exists []. rewrite app_nil_r, orb_false_r. unfold count_suppressed. simpl.
  repeat split; auto; lia.
Qed.

Lemma extends_trans (st1 st2 st3 : eval_state) :
  extends st1 st2 -> extends st2 st3 -> extends st1 st3.
Proof.
  intros (n1 & Hl1 & Hok1 & Hc1 & Ha1 & He1 & Hs1)
         (n2 & Hl2 & Hok2 & Hc2 & Ha2 & He2 & Hs2).
  exists (n1 ++ n2). split; [| split; [| split; [| split; [| split]]]].
  - rewrite Hl2, Hl1, app_assoc. reflexivity.
  - apply log_ok_app. rewrite <- Hc1. auto.
  - rewrite replay_app, <- Hc1. exact Hc2.
  - rewrite Ha2, Ha1, existsb_is_fired_app, orb_assoc. reflexivity.
  - rewrite He2, He1, count_suppressed_app, length_app. lia.
  - rewrite Hs2, Hs1, count_suppressed_app. lia.
Qed.

Lemma eval_trigger_extends (table_id : string) (values last_values : values_t)
  (now : Z) (tr : trigger) (st : eval_state) :
  match eval_trigger table_id values last_values now tr st with
  | inl st' => extends st st'
  | inr (st', _) => st' = st
  end.
Proof.
  unfold eval_trigger.
  destruct (values !! field tr) as [new_val |]; [| apply extends_refl].
  destruct (raw_fired tr new_val _) as [fired | e]; [| reflexivity].
  destruct (apply_cooldown_entry table_id now tr fired st)
    as (e & Hl & _ & _ & _ & _ & Hok & Hc & Ha & He & Hs).
  exists [e]. simpl. rewrite orb_false_r. auto 10.
Qed.

Lemma eval_loop_extends (table_id : string) (values last_values : values_t)
  (now : Z) (triggers : list trigger) (st : eval_state) :
  match eval_loop table_id values last_values now triggers st with
  | inl st' => extends st st'
  | inr (st', _) => extends st st'
  end.
Proof.
  revert st. induction triggers as [| tr rest IH]; intros st; simpl.
  - apply extends_refl.
  - pose proof (eval_trigger_extends table_id values last_values now tr st) as H1.
    destruct (eval_trigger _ _ _ _ _ _) as [st1 | [st1 e]].
    + specialize (IH st1).
      destruct (eval_loop _ _ _ _ _ _) as [st2 | [st2 e]];
        eapply extends_trans; eassumption.
    + subst st1. apply extends_refl.
Qed.


(** A trigger job starts its loop with an empty cooldown dictionary of its
    own. *)
Lemma init_trigger_job {W : Type} `{Callbacks W} (job_id : string)
  (cfg : Worker.job_config) (w : W) (ex : t) (m : JobMetrics.t) :
  Worker.job_type cfg = "trigger" ->
  _job_cooldowns (Worker.self (Worker.init job_id cfg w ex m)) !! job_id
  = Some ∅.
Proof.
  intros Hty. unfold Worker.init. rewrite Hty. simpl.
  apply lookup_insert_eq.
Qed.






End Cooldown.

(** ** Batching and flush *)

Section Batching.
Import Worker.

Context {W : Type} `{Callbacks W}.

Variable job_id : string.
Variable cfg : job_config.

Lemma enqueued_app (t1 t2 : list event) :
  enqueued (t1 ++ t2) = enqueued t1 ++ enqueued t2.
Proof. apply omap_app. Qed.

Lemma write_calls_app (t1 t2 : list event) :
  write_calls (t1 ++ t2) = write_calls t1 ++ write_calls t2.
Proof. apply omap_app. Qed.

Lemma on_exception_frame (e : string) (st : state W) :
  trace (on_exception e st) = trace st /\
  batch_buffer (on_exception e st) = batch_buffer st /\
  self (on_exception e st) = self st.
Proof.
  unfold on_exception. destruct (utcnow (world st)) as [now w]. auto.
Qed.

Lemma should_write_frame (table_id : string) (values : values_t)
  (st : state W) :
  trace (should_write job_id cfg table_id values st).2 = trace st /\
  batch_buffer (should_write job_id cfg table_id values st).2 = batch_buffer st.
Proof.
  unfold should_write. destruct (String.eqb _ _); [auto |].
  destruct (utcnow (world st)) as [now w]. auto.
Qed.










End Batching.

(** ** The write callback and failed inserts *)

Section Storage.
Import StorageService JobViewSet Worker.



(** The write callback of the job view returns: it never raises. *)
Lemma write_callback_returns (env : db_env) (tables : gmap string DeviceTable)
  (table_id : string) (rows : list values_t) (w : JobViewSet.world) :
  returns (JobViewSet.write_callback env tables table_id rows w).1.
Proof.
  unfold JobViewSet.write_callback.
  destruct (tables !! table_id) as [table |]; [| exact I].
  destruct (storage_target table) as [target |]; [| exact I].
  destruct (insert_batch _ _ _ _ _ _ _) as [[[success n] err] s]. exact I.
Qed.





(** The sibling path: a failed [test_connection] does dispose and remove. *)
Lemma failed_test_connection_drops_engine :
  let env := mk_env (fun _ => true) (fun _ => false) (fun _ _ _ => false) in
  let r := test_connection env "sqlite" "/data/log.db" (storage Sample.w0) in
  r.1.1 = false /\
  _engines r.2 !! engine_key "sqlite" "/data/log.db" = None /\
  disposed r.2 = [Sample.engine].
Proof.
  vm_compute. repeat split; reflexivity.
Qed.

End Storage.

(** * Further properties *)

(** ** Modbus codec *)

Section ModbusCodec.
Import ModbusService.

(** X1. [_to_signed_int] reads a 16-bit register as two's complement: the
    result lies in [-32768, 32767], is congruent to the register modulo
    [2^16], and is negative exactly from [0x8000] on. *)
Theorem to_signed_int_twos_complement (v : Z) :
  0 <= v < 65536 ->
  -32768 <= _to_signed_int v <= 32767 /\
  (_to_signed_int v) mod 65536 = v /\
  (_to_signed_int v < 0 <-> 32768 <= v).
Proof.
  intros Hv. unfold _to_signed_int.
  destruct (Z.leb_spec 32768 v).
  - split; [lia |]. split; [| lia].
    replace (v - 65536) with (v + (-1) * 65536) by lia.
    rewrite Z.mod_add by lia. apply Z.mod_small. lia.
  - split; [lia |]. split; [apply Z.mod_small; lia | lia].
Qed.

Lemma to_signed_int_twos_complement_witness :
  0 <= 65535 < 65536 /\
  -32768 <= _to_signed_int 65535 <= 32767 /\
  (_to_signed_int 65535) mod 65536 = 65535 /\
  (_to_signed_int 65535 < 0 <-> 32768 <= 65535).
Proof.
  split; [lia |]. exact (to_signed_int_twos_complement 65535 ltac:(lia)).
Defined.

Lemma string_chars_until_zero (registers : list Z) :
  string_chars registers = until_zero (register_bytes registers).
Proof.
  induction registers as [| reg rest IH]; [reflexivity |].
  unfold register_bytes in *. simpl.
  destruct (Z.land (Z.shiftr reg 8) 255 =? 0); [reflexivity |].
  destruct (Z.land reg 255 =? 0); [reflexivity |].
  rewrite IH. reflexivity.
Qed.

Lemma register_bytes_range (registers : list Z) :
  Forall (fun b => 0 <= b < 256) (register_bytes registers).
Proof.
  unfold register_bytes. induction registers as [| reg rest IH]; simpl;
    [constructor |].
  assert (Hb : forall x, 0 <= Z.land x 255 < 256).
  { intros x. change 255 with (Z.ones 8). rewrite Z.land_ones by lia.
    apply Z.mod_pos_bound. lia. }
  repeat constructor; try apply Hb. exact IH.
Qed.

Lemma until_zero_range (bytes : list Z) :
  Forall (fun b => 0 <= b < 256) bytes ->
  Forall (fun b => 0 < b < 256) (until_zero bytes) /\
  (length (until_zero bytes) <= length bytes)%nat.
Proof.
  induction 1 as [| b rest Hb _ IH]; simpl; [split; [constructor | lia] |].
  destruct (Z.eqb_spec b 0); simpl; [split; [constructor | lia] |].
  destruct IH. split; [constructor; [lia | assumption] | lia].
Qed.

Lemma register_bytes_length (registers : list Z) :
  length (register_bytes registers) = (2 * length registers)%nat.
Proof.
  induction registers as [| reg rest IH]; [reflexivity |].
  unfold register_bytes in *. rewrite bind_cons, length_app, IH. simpl. lia.
Qed.

Lemma string_of_list_ascii_length (l : list Ascii.ascii) :
  String.length (String.string_of_list_ascii l) = length l.
Proof. induction l; simpl; congruence. Qed.

(** X2. [_registers_to_string] yields the characters of the register bytes,
    high byte then low byte of each register, up to and without the first
    zero byte: no character of the result is NUL, the code points of the
    result are those bytes, and it has at most two characters per
    register. *)
Theorem registers_to_string_until_zero (registers : list Z) :
  let chars := until_zero (register_bytes registers) in
  _registers_to_string registers = String.string_of_list_ascii (chr <$> chars) /\
  Forall (fun b => 0 < b < 256) chars /\
  (fun a => Z.of_N (Ascii.N_of_ascii a))
    <$> String.list_ascii_of_string (_registers_to_string registers) = chars /\
  (String.length (_registers_to_string registers) <= 2 * length registers)%nat.
Proof.
  intros chars. unfold _registers_to_string.
  rewrite string_chars_until_zero. fold chars.
  destruct (until_zero_range _ (register_bytes_range registers)) as [Hr Hl].
  fold chars in Hr, Hl. rewrite register_bytes_length in Hl.
  split; [reflexivity |]. split; [exact Hr |]. split.
  - rewrite String.list_ascii_of_string_of_list_ascii, <- list_fmap_compose.
    clear Hl. induction Hr as [| b l Hb _ IH]; [reflexivity |].
    simpl. f_equal; [| exact IH].
    unfold chr. rewrite Ascii.N_ascii_embedding by lia. lia.
  - rewrite string_of_list_ascii_length, length_fmap. exact Hl.
Qed.

Lemma pack_HH_in_range (e : endianness) (a b : Z) :
  0 <= a < 65536 -> 0 <= b < 65536 ->
  pack_HH e a b
  = Ret (match e with
         | BigEndian => [hi a; lo a; hi b; lo b]
         | LittleEndian => [lo a; hi a; lo b; hi b]
         end).
Proof.
  intros Ha Hb. unfold pack_HH. rewrite !pack_H_in_range by lia.
  destruct e; reflexivity.
Qed.

(** The bytes of [bytes_data] for 16-bit registers, whatever the byte order
    string. *)
Lemma bytes_data_cases (R1 R2 : Z) (bo : string) :
  0 <= R1 < 65536 -> 0 <= R2 < 65536 ->
  bytes_data R1 R2 bo = Ret [hi R1; lo R1; hi R2; lo R2] \/
  bytes_data R1 R2 bo = Ret [lo R2; hi R2; lo R1; hi R1] \/
  bytes_data R1 R2 bo = Ret [hi R2; lo R2; hi R1; lo R1] \/
  bytes_data R1 R2 bo = Ret [lo R1; hi R1; lo R2; hi R2].
Proof.
  intros H1 H2. unfold bytes_data.
  repeat match goal with
    | |- context [String.eqb ?x ?y] => destruct (String.eqb x y)
    end; rewrite pack_HH_in_range by lia; auto.
Qed.

(** X3. The four byte orders are the four symmetries of the register pair:
    DCBA gives the ABCD bytes in reverse, BADC gives the ABCD bytes of the
    exchanged registers, and CDAB gives the reverse of those. *)
Theorem byte_orders_related (R1 R2 : Z) :
  0 <= R1 < 65536 -> 0 <= R2 < 65536 ->
  exists b,
    bytes_data R1 R2 "ABCD" = Ret b /\
    bytes_data R1 R2 "DCBA" = Ret (rev b) /\
    bytes_data R2 R1 "BADC" = Ret b /\
    bytes_data R2 R1 "CDAB" = Ret (rev b).
Proof.
  intros H1 H2. exists [hi R1; lo R1; hi R2; lo R2].
  unfold bytes_data. simpl String.eqb. cbv iota.
  rewrite !pack_HH_in_range by lia. auto.
Qed.

Lemma byte_orders_related_witness :
  bytes_data 16457 4059 "DCBA" = Ret [219; 15; 73; 64].
Proof.
  destruct (byte_orders_related 16457 4059 ltac:(lia) ltac:(lia))
    as (b & Ha & Hd & _).
  rewrite Hd. vm_compute in Ha. injection Ha as <-. reflexivity.
Defined.

Lemma hi_lo_inj (a b : Z) :
  0 <= a < 65536 -> 0 <= b < 65536 -> hi a = hi b -> lo a = lo b -> a = b.
Proof.
  intros Ha Hb Hh Hl.
  destruct (hi_lo_bytes a Ha) as (_ & _ & Ea).
  destruct (hi_lo_bytes b Hb) as (_ & _ & Eb). lia.
Qed.

(** X4. Under every byte order the bytes determine the registers: two pairs
    of 16-bit registers that give the same bytes are the same pair. *)
Theorem bytes_data_injective (R1 R2 S1 S2 : Z) (bo : string) :
  0 <= R1 < 65536 -> 0 <= R2 < 65536 ->
  0 <= S1 < 65536 -> 0 <= S2 < 65536 ->
  bytes_data R1 R2 bo = bytes_data S1 S2 bo ->
  R1 = S1 /\ R2 = S2.
Proof.
  intros HR1 HR2 HS1 HS2. unfold bytes_data.
  repeat match goal with
    | |- context [String.eqb ?x ?y] => destruct (String.eqb x y)
    end; rewrite !pack_HH_in_range by lia; intros [= ? ? ? ?];
    split; apply hi_lo_inj; assumption.
Qed.

Lemma bytes_data_injective_witness :
  bytes_data 16457 4059 "CDAB" = bytes_data (16384 + 73) (4096 - 37) "CDAB" /\
  16457 = 16384 + 73 /\ 4059 = 4096 - 37.
Proof.
  split; [reflexivity |].
  exact (bytes_data_injective 16457 4059 (16384 + 73) (4096 - 37) "CDAB"
           ltac:(lia) ltac:(lia) ltac:(lia) ltac:(lia) eq_refl).
Defined.

Lemma unpack_f_four (b0 b1 b2 b3 : Z) : returns (unpack_f [b0; b1; b2; b3]).
Proof.
  unfold unpack_f.
  repeat match goal with
    | |- context [if ?c then _ else _] => destruct c
    end; exact I.
Qed.

(** X5. [_registers_to_float] returns exactly when it is given at least two
    registers of which the first two are 16-bit values, whatever the byte
    order and the further registers; with fewer registers, or with one of
    the two out of range, it raises. *)
Theorem registers_to_float_returns (registers : list Z) (bo : string) :
  returns (_registers_to_float registers bo) <->
  exists r1 r2 rest,
    registers = r1 :: r2 :: rest /\ 0 <= r1 <= 65535 /\ 0 <= r2 <= 65535.
Proof.
  split.
  - destruct registers as [| r1 [| r2 rest]]; simpl; try tauto.
    intros Hret. exists r1, r2, rest. split; [reflexivity |].
    unfold bytes_data, pack_HH, pack_H in Hret.
    destruct (Z.leb_spec 0 r1), (Z.leb_spec r1 65535),
      (Z.leb_spec 0 r2), (Z.leb_spec r2 65535); try lia;
      repeat match type of Hret with
        | context [String.eqb ?x ?y] => destruct (String.eqb x y)
        end; simpl in Hret; contradiction.
  - intros (r1 & r2 & rest & -> & H1 & H2). simpl.
    destruct (bytes_data_cases r1 r2 bo ltac:(lia) ltac:(lia))
      as [-> | [-> | [-> | ->]]]; apply unpack_f_four.
Qed.

End ModbusCodec.

(** ** Modbus client pool *)

Section ModbusPool.
Import ModbusService ModbusClient.

Lemma get_client_pool (env : device_env) (host : string) (port : Z) (self : t) :
  let r := _get_client env host port self in
  closed r.2 = closed self /\
  (forall key, key <> (host, port) ->
     _clients r.2 !! key = _clients self !! key) /\
  (forall c, r.1 = Ret c ->
     _clients r.2 !! (host, port) = Some c /\ connected c = true) /\
  (~ returns r.1 ->
     connect_ok env host port = false /\ _clients r.2 = _clients self).
Proof.
  unfold _get_client.
  destruct (_clients self !! (host, port)) as [c |] eqn:Hc;
    [destruct (connected c) eqn:Hconn |];
    try destruct (connect_ok env host port) eqn:Hok; simpl;
    (split; [reflexivity |]); (split; [| split]);
    try (intros key Hkey; rewrite ?lookup_insert_ne by congruence; reflexivity);
    try (intros c' [= <-]; rewrite ?lookup_insert_eq; auto);
    try (intros c' [=]); try tauto; try (intros _; auto).
Qed.

Lemma drop_client_pool (host : string) (port : Z) (self : t) :
  _clients (_drop_client host port self) !! (host, port) = None /\
  (forall key, key <> (host, port) ->
     _clients (_drop_client host port self) !! key = _clients self !! key) /\
  closed (_drop_client host port self)
  = closed self ++ option_list (_clients self !! (host, port)).
Proof.
  unfold _drop_client.
  destruct (_clients self !! (host, port)) as [c |] eqn:Hc; simpl.
  - split; [apply lookup_delete_eq |]. split; [| reflexivity].
    intros key Hkey. apply lookup_delete_ne. congruence.
  - rewrite app_nil_r. auto.
Qed.

(** X6. A read of registers leaves the pool as the failure contract says:
    when it returns, a connected client for [(host, port)] is pooled and
    none was closed; when it raises, either no client for [(host, port)] is
    pooled any more, or the connection could not be opened and the pool is
    as it was; the clients of other devices stay pooled in every case. *)
Theorem read_registers_pool (env : device_env) (host : string) (port : Z)
  (address count unit_id : Z) (rt : register_type) (self : t) :
  let r := read_registers env host port address count unit_id rt self in
  (returns r.1 ->
   closed r.2 = closed self /\
   exists c, _clients r.2 !! (host, port) = Some c /\ connected c = true) /\
  (~ returns r.1 ->
   _clients r.2 !! (host, port) = None \/
   connect_ok env host port = false /\ _clients r.2 = _clients self) /\
  (forall key, key <> (host, port) ->
     _clients r.2 !! key = _clients self !! key).
Proof.
  unfold read_registers.
  pose proof (get_client_pool env host port self) as (Hcl & Hfr & Hret & Hraise).
  destruct (_get_client env host port self) as [[c | e] s1]; simpl in *.
  - destruct (Hret c eq_refl) as [Hc Hconn].
    destruct (answer env host port rt address count unit_id) as [l | msg | msg].
    + assert (Hgoal :
        forall o : outcome (list Z), returns o ->
          (returns o -> closed s1 = closed self /\
             exists c, _clients s1 !! (host, port) = Some c /\ connected c = true) /\
          (~ returns o -> _clients s1 !! (host, port) = None \/
             connect_ok env host port = false /\ _clients s1 = _clients self) /\
          (forall key, key <> (host, port) ->
             _clients s1 !! key = _clients self !! key))
        by (intros o Ho; split; [eauto | split; [tauto | exact Hfr]]).
      destruct rt; apply Hgoal; exact I.
    + destruct (drop_client_pool host port s1) as (Hnone & Hother & _).
      simpl. split; [tauto |]. split; [auto |].
      intros key Hkey. rewrite Hother by assumption. auto.
    + destruct (drop_client_pool host port s1) as (Hnone & Hother & _).
      simpl. split; [tauto |]. split; [auto |].
      intros key Hkey. rewrite Hother by assumption. auto.
  - split; [tauto |]. split; [| exact Hfr].
    intros _. right. apply Hraise. tauto.
Qed.

Lemma all_from_spec (check : Z -> bool) (count : nat) (z v : Z) :
  all_from check count z = true ->
  z <= v < z + Z.of_nat count -> check v = true.
Proof.
  revert z. induction count as [| count IH]; intros z Hall Hv; [lia |].
  simpl in Hall. apply andb_true_iff in Hall as [Hz Hrest].
  destruct (Z.eq_dec v z) as [-> | Hne]; [exact Hz |].
  apply (IH (z + 1)); [exact Hrest | lia].
Qed.

(** On every 16-bit register the product with [1.0] and the truncation give
    back the signed value. *)
Lemma int_read_exact (v : Z) :
  0 <= v < 65536 ->
  JobMetrics.int_of_float
    (SFmul 53 1024 (JobMetrics.float_of_int (_to_signed_int v)) float_1_0)
  = Ret (_to_signed_int v).
Proof.
  intros Hv.
  assert (Hall : all_from int_read_check (Z.to_nat 65536) 0 = true)
    by (vm_compute; reflexivity).
  pose proof (all_from_spec _ _ 0 v Hall ltac:(lia)) as Hc.
  unfold int_read_check in Hc.
  destruct (JobMetrics.int_of_float _) as [n |]; [| discriminate].
  apply Z.eqb_eq in Hc. congruence.
Qed.

(** X7. An [int] read with the default scale [1.0]: whenever the register
    read returns a 16-bit register, [read_value] returns its two's
    complement value, the product with the scale and the truncation to
    [int] changing nothing. *)
Theorem read_int_unscaled (env : device_env) (host : string) (port : Z)
  (address unit_id : Z) (byte_order : string) (self : t) (r : Z)
  (rest : list Z) :
  0 <= r < 65536 ->
  (read_registers env host port (_parse_address address).2 1 unit_id
     (_parse_address address).1 self).1 = Ret (r :: rest) ->
  (read_value env host port address "int" unit_id byte_order float_1_0 self).1
  = Ret (VI (_to_signed_int r)).
Proof.
  intros Hr Hread. unfold read_value.
  destruct (_parse_address address) as [rt a]. simpl in *.
  destruct (read_registers env host port a 1 unit_id rt self) as [o s1].
  simpl in *. subst o. simpl. rewrite (int_read_exact r Hr). reflexivity.
Qed.

Lemma read_int_unscaled_witness :
  let env := mk_env (fun _ _ => true) (fun _ _ _ _ _ _ => Values [65535]) in
  (read_value env "10.0.0.5" 502 40001 "int" 1 "ABCD" float_1_0
     (mk ∅ [] 0)).1 = Ret (VI (-1)).
Proof.
  intros env.
  exact (read_int_unscaled env "10.0.0.5" 502 40001 1 "ABCD" (mk ∅ [] 0)
           65535 [] ltac:(lia) eq_refl).
Defined.

(** X8. A typed read returns only with a connected client for
    [(host, port)] pooled; a data type other than [bool], [int], [float]
    and [string] raises and leaves the service as it was; the clients of
    other devices stay pooled in every case. *)
Theorem read_value_pool (env : device_env) (host : string) (port : Z)
  (address : Z) (data_type : string) (unit_id : Z) (byte_order : string)
  (scale : spec_float) (self : t) :
  let r := read_value env host port address data_type unit_id byte_order
             scale self in
  (returns r.1 ->
   exists c, _clients r.2 !! (host, port) = Some c /\ connected c = true) /\
  (data_type <> "bool" -> data_type <> "int" -> data_type <> "float" ->
   data_type <> "string" -> ~ returns r.1 /\ r.2 = self) /\
  (forall key, key <> (host, port) ->
     _clients r.2 !! key = _clients self !! key).
Proof.
  unfold read_value. destruct (_parse_address address) as [rt a].
  assert (Hrr : forall count,
            let r := read_registers env host port a count unit_id rt self in
            forall (k : list Z -> outcome value),
              (returns (bind r.1 k) ->
               exists c, _clients r.2 !! (host, port) = Some c /\
                         connected c = true) /\
              (forall key, key <> (host, port) ->
                 _clients r.2 !! key = _clients self !! key)).
  { intros count r k.
    destruct (read_registers_pool env host port a count unit_id rt self)
      as (Hret & _ & Hfr). fold r in Hret, Hfr.
    split; [| exact Hfr]. intros Hb. apply Hret.
    destruct r.1; [exact I | exact Hb]. }
  destruct (String.eqb data_type "bool") eqn:Eb;
    [| destruct (String.eqb data_type "int") eqn:Ei;
       [| destruct (String.eqb data_type "float") eqn:Ef;
          [| destruct (String.eqb data_type "string") eqn:Es]]].
  1-4: match goal with
       | Hrr : forall count : Z, _
         |- context [read_registers ?e ?h ?p ?x ?count ?u ?ty ?s] =>
           pose proof (Hrr count) as Hc; cbv zeta in Hc;
           destruct (read_registers e h p x count u ty s) as [o s1]
       end; simpl in *;
       (split; [apply (fun k => proj1 (Hc k)) |
                split; [| apply (Hc (fun _ => Ret (VB true)))]]);
       intros H1 H2 H3 H4;
       apply String.eqb_eq in Eb || apply String.eqb_eq in Ei
       || apply String.eqb_eq in Ef || apply String.eqb_eq in Es; congruence.
  simpl. split; [tauto |]. split; [tauto | reflexivity].
Qed.

End ModbusPool.

(** ** Storage engine pool and naming *)

Section StoragePool.
Import StorageService.

Lemma string_app_inj (p a b : string) : p +:+ a = p +:+ b -> a = b.
Proof. induction p as [| c p IH]; simpl; [auto |]. intros [= H]. auto. Qed.

(** X9. Two storage targets with a known provider share a pool entry only
    if they have the same provider and the same connection string. *)
Theorem engine_key_injective (p1 c1 p2 c2 : string) :
  known_provider p1 -> known_provider p2 ->
  engine_key p1 c1 = engine_key p2 c2 -> p1 = p2 /\ c1 = c2.
Proof.
  unfold known_provider, engine_key.
  intros [-> | [-> | [-> | ->]]] [-> | [-> | [-> | ->]]] Hk;
    try (simpl in Hk; discriminate);
    (split; [reflexivity |]);
    simpl in Hk; injection Hk as Hk; exact Hk.
Qed.

Lemma engine_key_injective_witness :
  engine_key "mysql" "u:p@h/db" = engine_key "mysql" "u:p@h/db" /\
  "mysql" = "mysql" /\ "u:p@h/db" = "u:p@h/db".
Proof.
  split; [reflexivity |].
  apply (engine_key_injective "mysql" "u:p@h/db" "mysql" "u:p@h/db");
    [right; right; left; reflexivity | right; right; left; reflexivity
    | reflexivity].
Defined.

(** X10. The pool caches: once [_get_engine] has returned an engine, asking
    again for the same target returns that engine and leaves the service
    as it is, whatever the database side has become; no engine is made
    twice. *)
Theorem get_engine_cached (env env' : db_env) (provider connection_string : string)
  (self : t) (engine : Engine) :
  (_get_engine env provider connection_string self).1 = Ret engine ->
  let self1 := (_get_engine env provider connection_string self).2 in
  _engines self1 !! engine_key provider connection_string = Some engine /\
  _get_engine env' provider connection_string self1 = (Ret engine, self1).
Proof.
  unfold _get_engine.
  destruct (_engines self !! engine_key provider connection_string) as [e |] eqn:Hk.
  - simpl. intros [= ->]. rewrite Hk. auto.
  - destruct (_build_connection_url provider connection_string) as [u | msg];
      [| discriminate].
    destruct (create_engine_ok env u); [| discriminate].
    simpl. intros [= <-]. rewrite lookup_insert_eq. auto.
Qed.

Lemma get_engine_cached_witness :
  let env := mk_env (fun _ => true) (fun _ => true) (fun _ _ _ => true) in
  let env' := mk_env (fun _ => false) (fun _ => false) (fun _ _ _ => false) in
  let self1 := (_get_engine env "sqlite" "/data/log.db" (mk ∅ [])).2 in
  _get_engine env' "sqlite" "/data/log.db" self1
  = (Ret (mk_engine "sqlite:////data/log.db"), self1).
Proof.
  intros env env' self1.
  exact (proj2 (get_engine_cached env env' "sqlite" "/data/log.db" (mk ∅ [])
                  (mk_engine "sqlite:////data/log.db") eq_refl)).
Defined.

(** X11. Dropping undoes getting: when a target has no pooled engine,
    getting one and dropping it again leaves the pool as it was, with that
    one engine disposed; dropping once more changes nothing. *)
Theorem drop_engine_after_get (env : db_env) (provider connection_string : string)
  (self : t) (engine : Engine) :
  _engines self !! engine_key provider connection_string = None ->
  (_get_engine env provider connection_string self).1 = Ret engine ->
  let self2 := _drop_engine provider connection_string
                 (_get_engine env provider connection_string self).2 in
  _engines self2 = _engines self /\
  disposed self2 = disposed self ++ [engine] /\
  _drop_engine provider connection_string self2 = self2.
Proof.
  intros Hk. unfold _get_engine. rewrite Hk.
  destruct (_build_connection_url provider connection_string) as [u | msg];
    [| discriminate].
  destruct (create_engine_ok env u); [| discriminate].
  simpl. intros [= <-]. unfold _drop_engine. simpl.
  rewrite lookup_insert_eq. simpl.
  rewrite delete_insert_eq, delete_id by exact Hk.
  rewrite Hk. auto.
Qed.

Lemma drop_engine_after_get_witness :
  let env := mk_env (fun _ => true) (fun _ => true) (fun _ _ _ => true) in
  let self2 := _drop_engine "sqlite" "/data/log.db"
                 (_get_engine env "sqlite" "/data/log.db" (mk ∅ [])).2 in
  _engines self2 = ∅ /\
  disposed self2 = [mk_engine "sqlite:////data/log.db"] /\
  _drop_engine "sqlite" "/data/log.db" self2 = self2.
Proof.
  intros env self2.
  exact (drop_engine_after_get env "sqlite" "/data/log.db" (mk ∅ [])
           (mk_engine "sqlite:////data/log.db") eq_refl eq_refl).
Defined.

(** X12. After [test_connection] the target has a pooled engine exactly
    when the test succeeded: a failed test leaves none behind, and no test
    touches the engines of other targets. *)
Theorem test_connection_pool (env : db_env) (provider connection_string : string)
  (self : t) :
  let r := test_connection env provider connection_string self in
  (r.1.1 = true <->
   is_Some (_engines r.2 !! engine_key provider connection_string)) /\
  (r.1.1 = true -> disposed r.2 = disposed self) /\
  (forall k, k <> engine_key provider connection_string ->
     _engines r.2 !! k = _engines self !! k).
Proof.
  unfold test_connection, _get_engine, _drop_engine.
  set (key := engine_key provider connection_string).
  destruct (_engines self !! key) as [e |] eqn:Hk.
  - destruct (select_1_ok env e); simpl.
    + rewrite Hk. split; [split; eauto |]. auto.
    + rewrite Hk. simpl. rewrite lookup_delete_eq.
      split; [split; [discriminate | intros [x [=]]] |].
      split; [discriminate |]. intros k Hne. apply lookup_delete_ne. congruence.
  - destruct (_build_connection_url provider connection_string) as [u | msg].
    + destruct (create_engine_ok env u); simpl.
      * destruct (select_1_ok env (mk_engine u)); simpl.
        -- rewrite lookup_insert_eq. split; [split; eauto |].
           split; [reflexivity |]. intros k Hne.
           apply lookup_insert_ne. congruence.
        -- rewrite lookup_insert_eq. simpl. rewrite lookup_delete_eq.
           split; [split; [discriminate | intros [x [=]]] |].
           split; [discriminate |]. intros k Hne.
           rewrite lookup_delete_ne, lookup_insert_ne by congruence. reflexivity.
      * rewrite Hk. simpl. rewrite Hk.
        split; [split; [discriminate | intros [x [=]]] |]. auto.
    + simpl. rewrite Hk. simpl. rewrite Hk.
      split; [split; [discriminate | intros [x [=]]] |]. auto.
Qed.

Lemma startswith_app (p s : string) : startswith (p +:+ s) p = true.
Proof.
  unfold startswith. induction p as [| c p IH]; simpl.
  - destruct s; reflexivity.
  - destruct (Ascii.ascii_dec c c); [exact IH | congruence].
Qed.

(** X13. [_build_connection_url] returns exactly for the four providers.
    A PostgreSQL connection string is brought to the form
    [postgresql://...] and a string already in that form is left as it is,
    so building the URL of a built URL gives the same URL. *)
Theorem build_connection_url_postgres (provider connection_string : string) :
  (returns (_build_connection_url provider connection_string) <->
   known_provider provider) /\
  exists u,
    _build_connection_url "postgres" connection_string = Ret u /\
    startswith u "postgresql://" = true /\
    _build_connection_url "postgres" u = Ret u.
Proof.
  split.
  - unfold _build_connection_url, known_provider.
    destruct (String.eqb_spec provider "sqlite");
      [simpl; tauto |].
    destruct (String.eqb_spec provider "postgres");
      [destruct (startswith _ _); simpl; tauto |].
    destruct (String.eqb_spec provider "mysql");
      [destruct (startswith _ _); simpl; tauto |].
    destruct (String.eqb_spec provider "mssql");
      [destruct (startswith _ _); simpl; tauto |].
    simpl. tauto.
  - unfold _build_connection_url. simpl String.eqb. cbv iota.
    destruct (startswith connection_string "postgresql://") eqn:Hs.
    + exists connection_string. rewrite Hs. auto.
    + exists ("postgresql://" +:+ connection_string).
      rewrite startswith_app. auto.
Qed.

(** X14. One physical table per logical name: [create_table] makes, and
    [table_exists] looks up, the same table, and the name [insert_batch]
    and [drop_table] write is that table's qualified name; two logical
    names never give the same physical table. *)
Theorem physical_table_names (provider table_name other : string) :
  queried_table provider table_name = created_table provider table_name /\
  qualified (created_table provider table_name)
  = _get_table_name table_name provider /\
  (_get_table_name table_name provider = _get_table_name other provider ->
   table_name = other).
Proof.
  unfold queried_table, created_table, _get_table_name, qualified.
  destruct (String.eqb provider "postgres"), (String.eqb provider "mssql"),
    (String.eqb provider "mysql"); simpl;
    (split; [reflexivity |]); (split; [reflexivity |]);
    intros [= H]; exact H.
Qed.

Lemma string_drop_app (p s : string) : string_drop (String.length p) (p +:+ s) = s.
Proof. induction p as [| c p IH]; simpl; [destruct s; reflexivity | exact IH]. Qed.

Lemma strip_namespace_prefixed (table_name : string) :
  strip_namespace (NAMESPACE +:+ "__" +:+ table_name) = table_name.
Proof.
  unfold strip_namespace.
  change (NAMESPACE +:+ "__" +:+ table_name)
    with ((NAMESPACE +:+ "__") +:+ table_name).
  rewrite startswith_app. apply string_drop_app.
Qed.

(** X15. Discovery undoes the naming of creation. When the catalog lists
    the physical tables created for some logical names, [discover_tables]
    returns these logical names: always on a provider without schemas, and
    on a provider with schemas as long as no logical name itself starts
    with [neuract__]. *)
Theorem discover_tables_round_trip (env : db_env)
  (listing : Engine -> outcome (list string))
  (provider connection_string : string) (self : t) (engine : Engine)
  (names : list string) :
  (_get_engine env provider connection_string self).1 = Ret engine ->
  listing engine = Ret ((fun n => (created_table provider n).2) <$> names) ->
  (schema_provider provider ->
   Forall (fun n => startswith n (NAMESPACE +:+ "__") = false) names) ->
  (discover_tables env listing provider connection_string self).1 = names.
Proof.
  intros Hget Hlist Hschema. unfold discover_tables.
  destruct (_get_engine env provider connection_string self) as [o s1].
  simpl in Hget. subst o. rewrite Hlist. simpl.
  rewrite <- list_fmap_compose.
  rewrite <- (list_fmap_id names) at 2. apply Forall_fmap_ext.
  unfold created_table, schema_provider in *.
  destruct (String.eqb_spec provider "postgres") as [-> | Hp]; simpl.
  - eapply Forall_impl; [apply Hschema; auto |].
    intros n Hn. simpl. unfold strip_namespace. rewrite Hn. reflexivity.
  - destruct (String.eqb_spec provider "mssql") as [-> | Hm]; simpl.
    + eapply Forall_impl; [apply Hschema; auto |].
      intros n Hn. simpl. unfold strip_namespace. rewrite Hn. reflexivity.
    + apply Forall_forall. intros n _. simpl. apply strip_namespace_prefixed.
Qed.

Lemma discover_tables_round_trip_witness :
  let env := mk_env (fun _ => true) (fun _ => true) (fun _ _ _ => true) in
  let listing (_ : Engine) : outcome (list string) :=
    Ret ["neuract__lt_panel"; "neuract__boiler"] in
  let self := mk ∅ [] in
  (_get_engine env "sqlite" "/data/log.db" self).1
  = Ret (mk_engine "sqlite:////data/log.db") /\
  (discover_tables env listing "sqlite" "/data/log.db" self).1
  = ["lt_panel"; "boiler"].
Proof.
  intros env listing self.
  assert (Hget : (_get_engine env "sqlite" "/data/log.db" self).1
                 = Ret (mk_engine "sqlite:////data/log.db")) by reflexivity.
  split; [exact Hget |].
  apply (discover_tables_round_trip env listing "sqlite" "/data/log.db" self
           (mk_engine "sqlite:////data/log.db") ["lt_panel"; "boiler"]
           Hget eq_refl).
  intros [H | H]; discriminate.
Defined.

End StoragePool.

(** ** Emptying the pools *)

Section Shutdown.





End Shutdown.

(** ** Metrics registry *)

Section Metrics.
Import JobMetrics.

Lemma run_snoc (jid : string) (ops : list op) (o : op) :
  run jid (ops ++ [o]) = apply_op (run jid ops) o.
Proof. unfold run. rewrite fold_left_app. reflexivity. Qed.

(** X17. The counters of a metrics object stay consistent whatever is
    recorded: errors never exceed attempts, fired and suppressed triggers
    never exceed evaluated ones, each window holds at most one latency per
    successful attempt and at most 1000, and the error log at most 100
    entries. *)
Theorem metrics_counters_consistent (jid : string) (ops : list op) :
  let m := run jid ops in
  0 <= read_errors m <= reads m /\
  0 <= write_errors m <= writes m /\
  0 <= triggers_fired m <= triggers_evaluated m /\
  0 <= triggers_suppressed m <= triggers_evaluated m /\
  Z.of_nat (length (read_latencies m)) <= reads m - read_errors m /\
  Z.of_nat (length (write_latencies m)) <= writes m - write_errors m /\
  (length (read_latencies m) <= 1000)%nat /\
  (length (write_latencies m) <= 1000)%nat /\
  (length (errors m) <= 100)%nat.
Proof.
  induction ops as [| o ops IH] using rev_ind.
  - simpl. lia.
  - rewrite run_snoc. cbv zeta in *. revert IH. generalize (run jid ops).
    intros m (Hr & Hw & Hf & Hs & Hlr & Hlw & Hbr & Hbw & He).
    destruct o as [now l [] | now l r [] | [] [] | now c msg | now];
      simpl; unfold deque_append, maxlen;
      rewrite ?length_drop, ?length_app; simpl;
      repeat split; try lia.
    destruct (Nat.ltb_spec 100 (length (errors m) + 1));
      rewrite ?length_drop, length_app; simpl; lia.
Qed.

Lemma last_n_snoc {A : Type} (n : nat) (l : list A) (x : A) :
  (1 <= n)%nat -> last_n n (last_n n l ++ [x]) = last_n n (l ++ [x]).
Proof.
  intros Hn. unfold last_n. rewrite !length_app, length_drop. simpl.
  destruct (Nat.le_gt_cases (length l) n) as [Hle | Hgt].
  - replace (length l - n)%nat with 0%nat by lia. simpl.
    replace (length l - 0)%nat with (length l) by lia. reflexivity.
  - replace (length l - (length l - n) + 1 - n)%nat with 1%nat by lia.
    replace (length l + 1 - n)%nat with (length l - n + 1)%nat by lia.
    rewrite (drop_app_le l [x] (length l - n + 1)) by lia.
    rewrite (drop_app_le (drop (length l - n) l) [x] 1)
      by (rewrite length_drop; lia).
    rewrite drop_drop. reflexivity.
Qed.

Lemma last_n_last_n {A : Type} (n k : nat) (l : list A) :
  (k <= n)%nat -> last_n k (last_n n l) = last_n k l.
Proof.
  intros Hk. unfold last_n. rewrite length_drop, drop_drop. f_equal. lia.
Qed.

Lemma record_error_last (now : Z) (c msg : string) (m : t) :
  errors (record_error now c msg m)
  = last_n 100 (errors m ++ [mk_error c msg now]).
Proof.
  unfold record_error, last_n. simpl.
  destruct (Nat.ltb_spec 100 (length (errors m ++ [mk_error c msg now])));
    [reflexivity |].
  replace (length (errors m ++ [mk_error c msg now]) - 100)%nat with 0%nat
    by lia.
  reflexivity.
Qed.

Lemma recorded_errors_snoc (ops : list op) (o : op) :
  recorded_errors (ops ++ [o])
  = match o with
    | OpError now c msg => recorded_errors ops ++ [mk_error c msg now]
    | OpReset _ => []
    | _ => recorded_errors ops
    end.
Proof. unfold recorded_errors. rewrite foldl_app. reflexivity. Qed.

Lemma run_errors (jid : string) (ops : list op) :
  errors (run jid ops) = last_n 100 (recorded_errors ops).
Proof.
  induction ops as [| o ops IH] using rev_ind; [reflexivity |].
  rewrite run_snoc, recorded_errors_snoc.
  destruct o as [now l [] | now l r [] | f s | now c msg | now];
    try exact IH.
  - simpl apply_op. rewrite record_error_last, IH.
    apply last_n_snoc. lia.
  - reflexivity.
Qed.

(** X18. The error log is the rolling tail of what was recorded: at any
    time it holds the last 100 errors recorded since the last reset, oldest
    first, and the summary shows the last 10 of them. *)
Theorem error_log_rolling (jid : string) (ops : list op) :
  errors (run jid ops) = last_n 100 (recorded_errors ops) /\
  exists s, get_summary (run jid ops) = Ret s /\
            recent_errors s = last_n 10 (recorded_errors ops).
Proof.
  split; [apply run_errors |].
  destruct (run_windows jid ops) as [Hr Hw].
  destruct (p95_latency_window _ Hr) as (pr & Epr & _).
  destruct (p95_latency_window _ Hw) as (pw & Epw & _).
  unfold get_summary. rewrite Epr, Epw. simpl bind.
  eexists. split; [reflexivity |]. simpl.
  rewrite run_errors. apply (last_n_last_n 100 10). lia.
Qed.

Lemma recorded_reads_snoc (ops : list op) (o : op) :
  recorded_reads (ops ++ [o])
  = match o with
    | OpRead _ latency true => recorded_reads ops ++ [latency]
    | OpReset _ => []
    | _ => recorded_reads ops
    end.
Proof. unfold recorded_reads. rewrite foldl_app. reflexivity. Qed.

Lemma recorded_writes_snoc (ops : list op) (o : op) :
  recorded_writes (ops ++ [o])
  = match o with
    | OpWrite _ latency _ true => recorded_writes ops ++ [latency]
    | OpReset _ => []
    | _ => recorded_writes ops
    end.
Proof. unfold recorded_writes. rewrite foldl_app. reflexivity. Qed.

(** X19. The latency windows are rolling: at any time the read window holds
    the latencies of the last 1000 successful reads since the last reset,
    oldest first, and the write window those of the last 1000 successful
    writes; a failed read or write leaves its window as it is. *)
Theorem latency_windows_rolling (jid : string) (ops : list op) :
  read_latencies (run jid ops) = last_n 1000 (recorded_reads ops) /\
  write_latencies (run jid ops) = last_n 1000 (recorded_writes ops).
Proof.
  induction ops as [| o ops [IHr IHw]] using rev_ind; [split; reflexivity |].
  rewrite run_snoc, recorded_reads_snoc, recorded_writes_snoc.
  destruct o as [now l [] | now l r [] | f s | now c msg | now];
    simpl apply_op; simpl read_latencies; simpl write_latencies;
    try (split; [exact IHr | exact IHw]).
  - split; [| exact IHw]. rewrite IHr.
    apply (last_n_snoc 1000). lia.
  - split; [exact IHr |]. rewrite IHw.
    apply (last_n_snoc 1000). lia.
  - split; reflexivity.
Qed.

Lemma sorted_lookup_bounds (l : list Q) (i : nat) (x : Q) :
  StronglySorted Qle l -> l !! i = Some x ->
  Forall (fun y => (y <= x)%Q) (take (S i) l) /\
  Forall (fun y => (x <= y)%Q) (drop i l).
Proof.
  intros Hs. revert i. induction Hs as [| y l Hs IH Hy]; intros i Hi;
    [discriminate |].
  destruct i as [| i]; simpl in *.
  - injection Hi as ->. split.
    + constructor; [apply Qle_refl | rewrite take_0; constructor].
    + constructor; [apply Qle_refl | exact Hy].
  - destruct (IH i Hi) as [Ht Hd]. split; [| exact Hd].
    constructor; [| exact Ht].
    apply list_elem_of_lookup_2 in Hi.
    rewrite Forall_forall in Hy. apply Hy. exact Hi.
Qed.

Lemma filter_length_ge {A : Type} (f : A -> bool) (l k rest : list A) :
  l = k ++ rest -> Forall (fun y => f y = true) k ->
  (length k <= length (List.filter f l))%nat.
Proof.
  intros -> Hk. rewrite List.filter_app, length_app.
  assert (List.filter f k = k) as ->; [| lia].
  induction Hk as [| y k Hy _ IH]; simpl; [reflexivity |].
  rewrite Hy, IH. reflexivity.
Qed.

Lemma filter_length_perm {A : Type} (f : A -> bool) (l l' : list A) :
  l ≡ₚ l' -> length (List.filter f l) = length (List.filter f l').
Proof.
  induction 1 as [| x l l' _ IH | x y l | l1 l2 l3 _ IH1 _ IH2]; simpl;
    try destruct (f x); try destruct (f y); simpl; congruence.
Qed.

(** X20. The reported p95 is a sample of the window, not an interpolation:
    it is one of the recorded latencies, more than 95 percent of the
    samples are at most it, and at least [N - floor (0.95 N)] samples are
    at least it. *)
Theorem p95_is_a_sample (jid : string) (ops : list op) (s : summary) (x : Q) :
  get_summary (run jid ops) = Ret s ->
  p95_read_latency_ms s = Some x ->
  let w := read_latencies (run jid ops) in
  let i := Z.to_nat (Qfloor ((95 # 100) * inject_Z (Z.of_nat (length w)))) in
  x ∈ w /\
  (i < length w)%nat /\
  (i + 1 <= length (List.filter (fun y => Qle_bool y x) w))%nat /\
  (length w - i <= length (List.filter (fun y => Qle_bool x y) w))%nat.
Proof.
  intros Hsum Hp95 w i.
  destruct (run_windows jid ops) as [Hr Hw]. fold w in Hr.
  destruct (p95_latency_window w Hr) as (pr & Epr & Hgt & Hle).
  destruct (p95_latency_window _ Hw) as (pw & Epw & _).
  unfold get_summary in Hsum. fold w in Hsum. rewrite Epr, Epw in Hsum.
  cbn [bind] in Hsum. injection Hsum as <-.
  cbn [p95_read_latency_ms] in Hp95.
  destruct (Nat.le_gt_cases (length w) 20) as [Hsmall | Hbig];
    [rewrite (Hle Hsmall) in Hp95; discriminate |].
  destruct (Hgt Hbig) as (x' & Ex & Hx).
  assert (x' = x) by congruence. subst x'. fold i in Hx.
  pose proof (sorted_sorted w) as Hs.
  destruct (sorted_lookup_bounds _ _ _ Hs Hx) as [Ht Hd].
  pose proof (lookup_lt_Some _ _ _ Hx) as Hi. rewrite sorted_length in Hi.
  split; [| split; [exact Hi | split]].
  - rewrite <- (sorted_perm w). eapply list_elem_of_lookup_2. exact Hx.
  - rewrite <- (filter_length_perm _ _ _ (sorted_perm w)).
    replace (i + 1)%nat with (length (take (S i) (sorted w)))
      by (rewrite length_take, sorted_length; lia).
    apply (filter_length_ge _ _ _ (drop (S i) (sorted w)));
      [symmetry; apply take_drop |].
    eapply Forall_impl; [exact Ht |]. intros y Hy. apply Qle_bool_iff. exact Hy.
  - rewrite <- (filter_length_perm _ _ _ (sorted_perm w)).
    replace (length w - i)%nat with (length (drop i (sorted w)))
      by (rewrite length_drop, sorted_length; lia).
    rewrite <- (filter_length_perm _ (drop i (sorted w) ++ take i (sorted w)));
      [| rewrite Permutation_app_comm, take_drop; reflexivity].
    apply (filter_length_ge _ _ _ (take i (sorted w))); [reflexivity |].
    eapply Forall_impl; [exact Hd |]. intros y Hy. apply Qle_bool_iff. exact Hy.
Qed.

Lemma p95_is_a_sample_witness :
  let ops := (fun k => OpRead 0 (inject_Z k) true) <$> seqZ 1 21 in
  exists s,
    get_summary (run "J" ops) = Ret s /\
    p95_read_latency_ms s = Some 20%Q /\
    20%Q ∈ read_latencies (run "J" ops).
Proof.
  intros ops.
  destruct (get_summary (run "J" ops)) as [s | e] eqn:Hs;
    [| vm_compute in Hs; discriminate].
  assert (Hp : p95_read_latency_ms s = Some 20%Q)
    by (vm_compute in Hs; injection Hs as <-; reflexivity).
  exists s. split; [reflexivity |]. split; [exact Hp |].
  exact (proj1 (p95_is_a_sample "J" ops s 20%Q Hs Hp)).
Defined.

End Metrics.

(** ** Trigger operators *)

Section Operators.
Import JobExecutor.

Lemma raw_fired_null_threshold (tr : trigger) (new old : pyval) :
  value tr = None -> operator tr <> "change" ->
  raw_fired tr new old = Ret false.
Proof.
  intros Hv Hop. unfold raw_fired. rewrite Hv.
  apply String.eqb_neq in Hop. rewrite Hop.
  repeat match goal with
    | |- context [String.eqb ?x ?y] => destruct (String.eqb x y)
    end; try reflexivity; destruct old; reflexivity.
Qed.

Lemma apply_cooldown_not_fired (table_id : string) (now : Z) (tr : trigger)
  (st : eval_state) :
  let st' := apply_cooldown table_id now tr false st in
  cooldowns st' = cooldowns st /\ any_fired st' = any_fired st /\
  JobMetrics.triggers_fired (metrics st') = JobMetrics.triggers_fired (metrics st).
Proof. unfold apply_cooldown, in_cooldown. simpl. auto. Qed.

Lemma eval_loop_null_threshold (table_id : string) (values last_values : values_t)
  (now : Z) (triggers : list trigger) (st : eval_state) :
  Forall (fun tr => value tr = None /\ operator tr <> "change") triggers ->
  exists st',
    eval_loop table_id values last_values now triggers st = inl st' /\
    cooldowns st' = cooldowns st /\ any_fired st' = any_fired st /\
    JobMetrics.triggers_fired (metrics st')
    = JobMetrics.triggers_fired (metrics st).
Proof.
  intros Hall. revert st.
  induction Hall as [| tr rest [Hv Hop] _ IH]; intros st; simpl.
  - eauto.
  - unfold eval_trigger.
    destruct (values !! field tr) as [new_val |]; [| apply IH].
    rewrite (raw_fired_null_threshold tr _ _ Hv Hop).
    destruct (apply_cooldown_not_fired table_id now tr st) as (Hc & Ha & Hf).
    destruct (IH (apply_cooldown table_id now tr false st))
      as (st' & E & Hc' & Ha' & Hf').
    exists st'. rewrite E. repeat split; congruence.
Qed.

Lemma evaluate_null_threshold (self : t) (job_id table_id : string)
  (values : values_t) (triggers : list trigger) (m : JobMetrics.t) (now : Z) :
  Forall (fun tr => value tr = None /\ operator tr <> "change") triggers ->
  let r := _evaluate_triggers self job_id table_id values triggers m now in
  result r = Ret false /\
  _job_cooldowns (self' r) = _job_cooldowns self /\
  JobMetrics.triggers_fired (metrics' r) = JobMetrics.triggers_fired m.
Proof.
  intros Hall r. subst r. unfold _evaluate_triggers.
  match goal with
  | |- context [eval_loop ?a ?b ?c ?d ?e ?f] =>
      destruct (eval_loop_null_threshold a b c d e f Hall)
        as (st' & E & Hc & Ha & Hf)
  end.
  rewrite E. simpl in *. rewrite Ha, Hc, Hf.
  split; [reflexivity |]. split; [| reflexivity].
  destruct (_job_cooldowns self !! job_id) as [cd |] eqn:Hcd; simpl;
    [apply insert_id; exact Hcd | reflexivity].
Qed.

(** X21. A trigger with an operator other than [change] and no threshold
    can never fire: a job all of whose triggers are such never decides to
    write. Every evaluation returns [False], whatever the values and
    whatever was stored, without raising, leaves the cooldown timestamps as
    they are and counts no fire. *)
Theorem null_threshold_never_writes (self : t) (job_id table_id : string)
  (values : values_t) (triggers : list trigger) (m : JobMetrics.t) (now : Z) :
  Forall (fun tr => value tr = None /\ operator tr <> "change") triggers ->
  let r := _evaluate_triggers self job_id table_id values triggers m now in
  result r = Ret false /\
  _job_cooldowns (self' r) = _job_cooldowns self /\
  JobMetrics.triggers_fired (metrics' r) = JobMetrics.triggers_fired m.
Proof.
  apply evaluate_null_threshold.
Qed.

Lemma null_threshold_never_writes_witness :
  let self := mk ∅ {[ "J" := ∅ ]} in
  let triggers := [mk_trigger "temp" ">" None 0 0;
                   mk_trigger "temp" "rising" None 0 1000] in
  result (_evaluate_triggers self "J" "T" {[ "temp" := VNone ]} triggers
            (JobMetrics.new "J") 0) = Ret false.
Proof.
  intros self triggers.
  apply (null_threshold_never_writes self "J" "T" {[ "temp" := VNone ]}
           triggers (JobMetrics.new "J") 0).
  repeat constructor; discriminate.
Defined.

(** X22. The edge operators on numbers: with a previous value [x], a new
    value [y] and a threshold [t], [rising] fires iff [x <= t < y] and
    [falling] fires iff [y < t <= x]; a [rising] and a [falling] trigger
    with the same threshold never fire on the same pair of values. *)
Theorem edge_operators (tr : trigger) (new old : pyval) (t x y : Q) :
  value tr = Some t -> as_num old = Some x -> as_num new = Some y ->
  (operator tr = "rising" ->
   exists b, raw_fired tr new old = Ret b /\
             (b = true <-> (x <= t)%Q /\ (t < y)%Q)) /\
  (operator tr = "falling" ->
   exists b, raw_fired tr new old = Ret b /\
             (b = true <-> (t <= x)%Q /\ (y < t)%Q)) /\
  (forall tr', value tr' = Some t ->
     operator tr = "rising" -> operator tr' = "falling" ->
     ~ (raw_fired tr new old = Ret true /\ raw_fired tr' new old = Ret true)).
Proof.
  intros Hv Hold Hnew.
  assert (Hnn : old <> VNone) by (intros ->; discriminate).
  assert (Hr : operator tr = "rising" ->
               raw_fired tr new old = Ret (Qle_bool x t && Qlt_bool t y)).
  { intros Hop. unfold raw_fired. rewrite Hop, Hv. simpl String.eqb. cbv iota.
    unfold py_le, py_gt, py_cmp. rewrite Hold, Hnew.
    destruct old; try congruence; simpl;
      destruct (Qle_bool x t); reflexivity. }
  assert (Hf : forall tr', value tr' = Some t -> operator tr' = "falling" ->
               raw_fired tr' new old = Ret (Qle_bool t x && Qlt_bool y t)).
  { intros tr' Hv' Hop. unfold raw_fired. rewrite Hop, Hv'. simpl String.eqb.
    cbv iota. unfold py_ge, py_lt, py_cmp. rewrite Hold, Hnew.
    destruct old; try congruence; simpl;
      destruct (Qle_bool t x); reflexivity. }
  split; [| split].
  - intros Hop. eexists. split; [apply Hr; exact Hop |].
    rewrite andb_true_iff, Qle_bool_iff, Qlt_bool_iff. tauto.
  - intros Hop. eexists. split; [apply Hf; assumption |].
    rewrite andb_true_iff, Qle_bool_iff, Qlt_bool_iff. tauto.
  - intros tr' Hv' Hop Hop' [H1 H2].
    rewrite (Hr Hop) in H1. rewrite (Hf tr' Hv' Hop') in H2.
    injection H1 as H1. injection H2 as H2.
    apply andb_true_iff in H1 as [H1 H1'], H2 as [H2 H2'].
    apply Qle_bool_iff in H1. apply Qlt_bool_iff in H1', H2'.
    apply (Qlt_irrefl t). eapply Qlt_trans; [exact H1' | exact H2'].
Qed.

Lemma edge_operators_witness :
  raw_fired (mk_trigger "temp" "rising" (Some 50%Q) 0 0)
    (VFloat 51) (VInt 50) = Ret true.
Proof.
  destruct (edge_operators (mk_trigger "temp" "rising" (Some 50%Q) 0 0)
              (VFloat 51) (VInt 50) 50 (inject_Z 50) 51
              eq_refl eq_refl eq_refl) as (Hr & _).
  destruct (Hr eq_refl) as (b & Hb & Hiff).
  rewrite Hb. f_equal. apply Hiff.
  split; [apply Qle_refl | reflexivity].
Defined.

Lemma eval_loop_returns_numeric (table_id : string)
  (values last_values : values_t) (now : Z) (triggers : list trigger)
  (st st' : eval_state) :
  eval_loop table_id values last_values now triggers st = inl st' ->
  Forall (fun tr =>
            forall t v, ordering_operator (operator tr) -> value tr = Some t ->
                        values !! field tr = Some v -> is_Some (as_num v))
    triggers.
Proof.
  revert st. induction triggers as [| tr rest IH]; intros st Hl;
    [constructor |].
  simpl in Hl.
  destruct (eval_trigger table_id values last_values now tr st)
    as [st1 | [st1 e]] eqn:Ht; [| discriminate].
  constructor; [| eapply IH; exact Hl].
  intros t v Hop Hv Hval. unfold eval_trigger in Ht. rewrite Hval in Ht.
  destruct (as_num v) as [q |] eqn:Hq; [eauto |]. exfalso.
  assert (Hraise : forall old, exists e, raw_fired tr v old = Raise e).
  { intros old. unfold raw_fired, py_gt, py_ge, py_lt, py_le, py_cmp.
    rewrite Hv, Hq.
    destruct Hop as [-> | [-> | [-> | ->]]]; simpl; eauto. }
  destruct (Hraise (default VNone (last_values !! field tr))) as [e He].
  rewrite He in Ht. discriminate.
Qed.

(** X23. A failed read stops the evaluation of an ordering trigger: if
    some trigger with one of the operators [>], [>=], [<], [<=] and a
    threshold watches a field whose value is present but not a number
    ([None] or a string, for instance), the evaluation raises and the
    stored last values stay as they were. *)
Theorem non_numeric_value_raises (self : t) (job_id table_id : string)
  (values : values_t) (triggers : list trigger) (m : JobMetrics.t) (now : Z)
  (tr : trigger) (t : Q) (v : pyval) :
  tr ∈ triggers -> ordering_operator (operator tr) -> value tr = Some t ->
  values !! field tr = Some v -> as_num v = None ->
  let r := _evaluate_triggers self job_id table_id values triggers m now in
  ~ returns (result r) /\
  _job_last_values (self' r) = _job_last_values self.
Proof.
  intros Hin Hop Hv Hval Hnum r.
  assert (Hr : ~ returns (result r)).
  { subst r. unfold _evaluate_triggers.
    destruct (eval_loop _ _ _ _ _ _) as [st | [st e]] eqn:Hl; simpl; [| tauto].
    pose proof (eval_loop_returns_numeric _ _ _ _ _ _ _ Hl) as Hall.
    rewrite Forall_forall in Hall.
    destruct (Hall tr Hin t v Hop Hv Hval) as [q Hq]. congruence. }
  split; [exact Hr |].
  apply evaluate_raises_keeps_last_values. exact Hr.
Qed.

Lemma non_numeric_value_raises_witness :
  let self := mk {[ "J" := {[ "T" := {[ "temp" := VFloat 20 ]} ]} ]} {[ "J" := ∅ ]} in
  let tr := mk_trigger "temp" ">" (Some 50%Q) 0 0 in
  let r := _evaluate_triggers self "J" "T" {[ "temp" := VNone ]} [tr]
             (JobMetrics.new "J") 0 in
  ~ returns (result r) /\
  _job_last_values (self' r) = _job_last_values self.
Proof.
  intros self tr.
  apply (non_numeric_value_raises self "J" "T" {[ "temp" := VNone ]} [tr]
           (JobMetrics.new "J") 0 tr 50%Q VNone).
  - left.
  - left. reflexivity.
  - reflexivity.
  - reflexivity.
  - reflexivity.
Defined.

End Operators.

(** ** What an evaluation touches *)

Section EvaluationFrame.
Import JobExecutor.

Lemma entry_from_weaken (table_id : string) (values : values_t)
  (tr : trigger) (triggers : list trigger) (now : Z) (e : log_entry) :
  entry_from table_id values triggers now e ->
  entry_from table_id values (tr :: triggers) now e.
Proof.
  intros (Hn & tr' & Hin & Hrest). split; [exact Hn |].
  exists tr'. split; [right; exact Hin | exact Hrest].
Qed.

Lemma eval_loop_entries (table_id : string) (values last_values : values_t)
  (now : Z) (triggers : list trigger) (st : eval_state) :
  let st' := match eval_loop table_id values last_values now triggers st with
             | inl st' => st'
             | inr (st', _) => st'
             end in
  exists new, log st' = log st ++ new /\
              Forall (entry_from table_id values triggers now) new.
Proof.
  revert st. induction triggers as [| tr rest IH]; intros st; simpl.
  - exists []. rewrite app_nil_r. auto.
  - unfold eval_trigger.
    destruct (values !! field tr) as [new_val |] eqn:Hval.
    + destruct (raw_fired tr new_val _) as [fired | e].
      * destruct (apply_cooldown_entry table_id now tr fired st)
          as (e & Hl & Hk & Hn & Hc & _).
        destruct (IH (apply_cooldown table_id now tr fired st))
          as (new & Hl' & Hall).
        exists (e :: new). split.
        -- destruct (eval_loop _ _ _ _ _ _) as [st2 | [st2 e2]];
             rewrite Hl', Hl, <- app_assoc; reflexivity.
        -- constructor.
           ++ split; [exact Hn |]. exists tr.
              split; [left |]. rewrite Hval. eauto.
           ++ eapply Forall_impl; [exact Hall |].
              intros e'. apply entry_from_weaken.
      * exists []. rewrite app_nil_r. auto.
    + destruct (IH st) as (new & Hl' & Hall).
      exists new. split; [exact Hl' |].
      eapply Forall_impl; [exact Hall |]. intros e'. apply entry_from_weaken.
Qed.

Lemma replay_touched (now : Z) (new : list log_entry) (cd : gmap string Z)
  (k : string) :
  Forall (fun e => le_now e = now) new ->
  replay cd new !! k = cd !! k \/
  replay cd new !! k = Some now /\
  exists e, e ∈ new /\ is_fired e = true /\ le_key e = k.
Proof.
  intros Hall. revert cd. induction Hall as [| e new He _ IH]; intros cd.
  - left. reflexivity.
  - unfold replay in *. simpl.
    destruct (IH (replay_entry cd e)) as [Hsame | (Hnow & e' & Hin & Hf & Hk)].
    + rewrite Hsame. unfold replay_entry.
      destruct (le_verdict e) eqn:Hv; auto.
      destruct (decide (le_key e = k)) as [Heq | Hne].
      * right. rewrite <- Heq, lookup_insert_eq, He.
        split; [reflexivity |]. exists e.
        split; [left |]. unfold is_fired. rewrite Hv. auto.
      * left. apply lookup_insert_ne. exact Hne.
    + right. split; [exact Hnow |]. exists e'.
      split; [right; exact Hin | auto].
Qed.

(** X24. An evaluation touches the trigger state of its own job only. The
    last values and cooldowns of every other job stay as they are. In the
    job's own cooldown dictionary an entry is either unchanged or set to
    the time of this evaluation, and then its key is [table_id:field] of a
    trigger whose field is present; no entry is removed. A job without a
    cooldown dictionary gets none. *)
Theorem evaluation_frame (self : t) (job_id table_id : string)
  (values : values_t) (triggers : list trigger) (m : JobMetrics.t) (now : Z) :
  let r := _evaluate_triggers self job_id table_id values triggers m now in
  (forall j, j <> job_id ->
     _job_last_values (self' r) !! j = _job_last_values self !! j /\
     _job_cooldowns (self' r) !! j = _job_cooldowns self !! j) /\
  (forall cd, _job_cooldowns self !! job_id = Some cd ->
     exists cd', _job_cooldowns (self' r) !! job_id = Some cd' /\
       forall k, cd' !! k = cd !! k \/
                 cd' !! k = Some now /\
                 exists tr, tr ∈ triggers /\
                   k = cooldown_key table_id (field tr) /\
                   is_Some (values !! field tr)) /\
  (_job_cooldowns self !! job_id = None ->
   _job_cooldowns (self' r) = _job_cooldowns self).
Proof.
  intros r. subst r. unfold _evaluate_triggers.
  match goal with
  | |- context [eval_loop ?a ?b ?c ?d ?e ?f] =>
      pose proof (eval_loop_extends a b c d e f) as Hext;
      pose proof (eval_loop_entries a b c d e f) as Hent;
      destruct (eval_loop a b c d e f) as [st | [st e']]
  end;
    cbv zeta in Hent; destruct Hent as (new & Hl & Hall);
    destruct Hext as (new' & Hl' & _ & Hc & _);
    assert (new' = new) by (rewrite Hl in Hl'; eapply app_inv_head; eauto);
    subst new'; simpl in *.
  all: split; [| split];
    [ intros j Hj; destruct (_job_cooldowns self !! job_id);
      rewrite ?lookup_insert_ne by congruence; auto
    | intros cd Hcd; rewrite Hcd in *; simpl in *;
      exists (cooldowns st); rewrite lookup_insert_eq;
      (split; [reflexivity |]); intros k; rewrite Hc;
      assert (Hnow : Forall (fun e => le_now e = now) new)
        by (eapply Forall_impl; [exact Hall | intros e0 [H0 _]; exact H0]);
      destruct (replay_touched now new cd k Hnow)
        as [Hsame | (Hset & e0 & Hin & _ & Hk)]; [left; exact Hsame |];
      right; (split; [exact Hset |]);
      rewrite Forall_forall in Hall;
      destruct (Hall e0 Hin) as (_ & tr & Htr & Hkey & _ & Hpres);
      exists tr; (split; [exact Htr |]); split; [congruence | exact Hpres]
    | intros Hnone; rewrite Hnone; reflexivity ].
Qed.




End EvaluationFrame.

(** ** Rows through the worker loop *)

Section WorkerRows.
Import Worker.

Context {W : Type} `{Callbacks W}.

Variable job_id : string.
Variable cfg : job_config.

Lemma row_ok_mono (tr tr' : list event) (table_id : string) (row : values_t) :
  row_ok tr table_id row -> row_ok (tr ++ tr') table_id row.
Proof.
  intros [Hts Hin]. split; [exact Hts |]. apply elem_of_app. left. exact Hin.
Qed.

Lemma rows_inv_frame (st st' : state W) :
  trace st' = trace st -> batch_buffer st' = batch_buffer st ->
  rows_inv st -> rows_inv st'.
Proof. unfold rows_inv. intros -> ->. auto. Qed.

Lemma enqueue_rows_inv (table_id : string) (values : values_t) (st : state W) :
  rows_inv st -> rows_inv (enqueue cfg table_id values st).
Proof.
  intros [Hbuf Hwr]. unfold enqueue.
  destruct (utcnow (world st)) as [ts w1].
  set (row := <["timestamp_utc" := VTime ts]> values).
  set (buffer := default [] (batch_buffer st !! table_id) ++ [row]).
  set (tr1 := trace st ++ [EvEnqueue table_id row]).
  assert (Hrow : row_ok tr1 table_id row).
  { split; [subst row; rewrite lookup_insert_eq; eauto |].
    subst tr1. apply elem_of_app. right. left. }
  assert (Hbuffer : Forall (row_ok tr1 table_id) buffer).
  { subst buffer. apply Forall_app. split; [| constructor; [exact Hrow | constructor]].
    destruct (batch_buffer st !! table_id) as [buf |] eqn:Hb; simpl;
      [| constructor].
    eapply Forall_impl; [exact (Hbuf _ _ Hb) |].
    intros r. apply row_ok_mono. }
  assert (Hne : buffer <> []) by (subst buffer; intros E; destruct (default _ _); discriminate).
  assert (Hinv1 : forall bb tr,
            (bb = <[table_id := buffer]> (batch_buffer st) \/
             bb = <[table_id := []]> (<[table_id := buffer]> (batch_buffer st))) ->
            (tr = tr1 \/ tr = tr1 ++ [EvWrite table_id buffer]) ->
            forall (w : W) (s : JobExecutor.t) (m : JobMetrics.t),
              rows_inv (mk w s m bb tr)).
  { intros bb tr Hbb Htr w s m.
    assert (Hext : exists tr', tr = tr1 ++ tr')
      by (destruct Htr as [-> | ->];
          [exists []; rewrite app_nil_r; reflexivity | eauto]).
    destruct Hext as [tr' Etr]. split; simpl.
    - intros tid buf Hl.
      destruct (decide (tid = table_id)) as [-> | Hne'].
      + destruct Hbb as [-> | ->]; rewrite lookup_insert_eq in Hl;
          injection Hl as <-; [| constructor].
        rewrite Etr. eapply Forall_impl; [exact Hbuffer |].
        intros r. apply row_ok_mono.
      + assert (Hl' : batch_buffer st !! tid = Some buf)
          by (destruct Hbb as [-> | ->];
              rewrite ?lookup_insert_ne in Hl by congruence; exact Hl).
        rewrite Etr. subst tr1. rewrite <- app_assoc.
        eapply Forall_impl; [exact (Hbuf _ _ Hl') |].
        intros r. apply row_ok_mono.
    - intros tid rows Hin.
      assert (Hcases : EvWrite tid rows ∈ trace st \/
                       (tid = table_id /\ rows = buffer)).
      { destruct Htr as [-> | ->]; subst tr1;
          repeat (apply elem_of_app in Hin as [Hin | Hin]); auto;
          apply list_elem_of_singleton in Hin; try discriminate.
        injection Hin as -> ->. auto. }
      destruct Hcases as [Hold | [-> ->]].
      + destruct (Hwr _ _ Hold) as [Hn Hall]. split; [exact Hn |].
        rewrite Etr. subst tr1. rewrite <- app_assoc.
        eapply Forall_impl; [exact Hall |]. intros r. apply row_ok_mono.
      + split; [exact Hne |]. rewrite Etr.
        eapply Forall_impl; [exact Hbuffer |]. intros r. apply row_ok_mono. }
  destruct (batch_size cfg <=? Z.of_nat (length buffer)).
  - destruct (perf_counter w1) as [write_start w2].
    destruct (write_callback table_id buffer w2) as [[success | e] w3].
    + destruct (perf_counter w3) as [t w4].
      destruct success; [destruct (utcnow w4) as [now w5] |];
        apply Hinv1; auto.
    + unfold on_exception. simpl.
      destruct (utcnow w3) as [now w4]. apply Hinv1; auto.
  - apply Hinv1; auto.
Qed.

Lemma process_table_rows_inv (st : state W) (table_id : string) :
  rows_inv st -> rows_inv (process_table job_id cfg st table_id).
Proof.
  intros Hinv. unfold process_table.
  destruct (perf_counter (world st)) as [read_start w1].
  destruct (read_callback table_id w1) as [[values | e] w2].
  - destruct (perf_counter w2) as [t w3]. destruct (utcnow w3) as [now w4].
    destruct values as [values |]; [| apply Hinv].
    match goal with
    | |- context [should_write job_id cfg table_id values ?s] =>
        pose proof (should_write_frame job_id cfg table_id values s) as [Ht Hbb];
        destruct (should_write job_id cfg table_id values s) as [sw st5]
    end.
    simpl in Ht, Hbb.
    assert (H5 : rows_inv st5) by (eapply rows_inv_frame; eauto).
    destruct sw as [[|] | e].
    + apply enqueue_rows_inv. exact H5.
    + exact H5.
    + destruct (on_exception_frame e st5) as (Ht' & Hbb' & _).
      eapply rows_inv_frame; eauto.
  - match goal with
    | |- rows_inv (on_exception e ?s) =>
        destruct (on_exception_frame e s) as (Ht' & Hbb' & _);
        eapply (rows_inv_frame st); [exact Ht' | exact Hbb' | exact Hinv]
    end.
Qed.

Lemma foldl_inv {A B : Type} (P : A -> Prop) (f : A -> B -> A) (l : list B)
  (a : A) :
  (forall a b, P a -> P (f a b)) -> P a -> P (foldl f a l).
Proof.
  intros Hf. revert a. induction l as [| b l IH]; intros a Ha; simpl; auto.
Qed.

Lemma iteration_inv (P : state W -> Prop) (st : state W) :
  (forall s tid, P s -> P (process_table job_id cfg s tid)) ->
  (forall s w, P s ->
     P (mk w (self s) (metrics s) (batch_buffer s) (trace s))) ->
  P st -> P (iteration job_id cfg st).
Proof.
  intros Hstep Hworld Hst. unfold iteration.
  destruct (perf_counter (world st)) as [loop_start w].
  match goal with
  | |- context [foldl ?f ?a ?l] =>
      assert (Hf : P (foldl f a l))
        by (apply foldl_inv; [exact Hstep | apply Hworld; exact Hst]);
      destruct (foldl f a l) as [w1 s1 m1 bb1 tr1] eqn:Ef
  end.
  simpl. destruct (perf_counter w1) as [t w'].
  apply (Hworld _ _ Hf).
Qed.

Lemma iterate_inv (P : state W -> Prop) (n : nat) (st : state W) :
  (forall s tid, P s -> P (process_table job_id cfg s tid)) ->
  (forall s w, P s ->
     P (mk w (self s) (metrics s) (batch_buffer s) (trace s))) ->
  P st -> P (iterate job_id cfg n st).
Proof.
  intros Hstep Hworld. revert st.
  induction n as [| n IH]; intros st Hst; simpl; [exact Hst |].
  apply IH, iteration_inv; assumption.
Qed.

Lemma init_buffers (w : W) (ex : JobExecutor.t) (m : JobMetrics.t)
  (table_id : string) (buffer : list values_t) :
  batch_buffer (init job_id cfg w ex m) !! table_id = Some buffer ->
  buffer = [].
Proof.
  unfold init. simpl. intros Hl.
  apply elem_of_list_to_map_2 in Hl.
  apply list_elem_of_fmap in Hl as (tid & [= _ ->] & _). reflexivity.
Qed.

Lemma init_rows_inv (w : W) (ex : JobExecutor.t) (m : JobMetrics.t) :
  rows_inv (init job_id cfg w ex m).
Proof.
  split.
  - intros tid buf Hl. rewrite (init_buffers _ _ _ _ _ Hl). constructor.
  - unfold init. simpl. intros tid rows Hin. inversion Hin.
Qed.

Lemma flush_table_rows_inv (st : state W) (table_id : string) :
  rows_inv st -> rows_inv (flush_table st table_id).
Proof.
  intros [Hbuf Hwr]. unfold flush_table.
  destruct (batch_buffer st !! table_id) as [buf |] eqn:Hb; simpl;
    [| split; assumption].
  destruct buf as [| row rows]; [split; assumption |].
  destruct (write_callback table_id (row :: rows) (world st)) as [res w].
  split; simpl.
  - intros tid buffer Hl. eapply Forall_impl; [exact (Hbuf _ _ Hl) |].
    intros r. apply row_ok_mono.
  - intros tid rs Hin. apply elem_of_app in Hin as [Hin | Hin].
    + destruct (Hwr _ _ Hin) as [Hn Hall]. split; [exact Hn |].
      eapply Forall_impl; [exact Hall |]. intros r. apply row_ok_mono.
    + apply list_elem_of_singleton in Hin. injection Hin as -> ->.
      split; [discriminate |].
      eapply Forall_impl; [exact (Hbuf _ _ Hb) |]. intros r. apply row_ok_mono.
Qed.

(** X26. Whatever the callbacks do, also when they raise: every row the
    worker hands to the write callback, in the loop or in the flush on
    stop, carries [timestamp_utc] and was enqueued for the very table the
    call names, and the callback is never called with an empty list. *)
Theorem written_rows_stamped (n : nat) (w : W) (ex : JobExecutor.t)
  (m : JobMetrics.t) (table_id : string) (rows : list values_t) :
  let fin := _run_job_loop job_id cfg n w ex m in
  EvWrite table_id rows ∈ trace fin ->
  rows <> [] /\
  Forall (fun row => is_Some (row !! "timestamp_utc") /\
                     EvEnqueue table_id row ∈ trace fin) rows.
Proof.
  intros fin Hin.
  assert (Hinv : rows_inv fin).
  { subst fin. unfold _run_job_loop, flush.
    apply foldl_inv; [intros s tid; apply flush_table_rows_inv |].
    apply (iterate_inv rows_inv).
    - intros s tid. apply process_table_rows_inv.
    - intros s w0. apply rows_inv_frame; reflexivity.
    - apply init_rows_inv. }
  exact (proj2 Hinv table_id rows Hin).
Qed.

End WorkerRows.

Lemma written_rows_stamped_witness :
  let cb := JobViewSet.job_callbacks Sample.env_ok Sample.tables Sample.read in
  let fin := Worker._run_job_loop "J" (Sample.cfg 3) 3 Sample.w0 Sample.ex0
               (JobMetrics.new "J") in
  exists rows,
    Worker.EvWrite "T" rows ∈ Worker.trace fin /\ rows <> [] /\
    Forall (fun row => is_Some (row !! "timestamp_utc") /\
                       Worker.EvEnqueue "T" row ∈ Worker.trace fin) rows.
Proof.
  intros cb fin.
  assert (Hex : exists rows, Worker.EvWrite "T" rows ∈ Worker.trace fin).
  { destruct (Worker.trace fin) as [| e1 [| e2 [| e3 [| [tid r | tid rows] rest]]]]
      eqn:Htr; try (vm_compute in Htr; discriminate).
    exists rows. assert (tid = "T") as -> by (vm_compute in Htr; congruence).
    do 3 right. left. }
  destruct Hex as [rows Hin]. exists rows. split; [exact Hin |].
  exact (written_rows_stamped (H := cb) "J" (Sample.cfg 3) 3 Sample.w0
           Sample.ex0 (JobMetrics.new "J") "T" rows Hin).
Defined.

(** ** Writes and counters of the worker loop *)

Section WorkerCounts.
Import Worker.

Context {W : Type} `{Callbacks W}.

Variable job_id : string.
Variable cfg : job_config.

Lemma should_write_trigger_false (table_id : string) (values : values_t)
  (st : state W) :
  job_type cfg <> "continuous" ->
  Forall (fun tr => JobExecutor.value tr = None /\
                    JobExecutor.operator tr <> "change") (triggers cfg) ->
  (should_write job_id cfg table_id values st).1 = Ret false.
Proof.
  intros Hty Hall. unfold should_write.
  apply String.eqb_neq in Hty. rewrite Hty.
  destruct (utcnow (world st)) as [now w]. simpl.
  apply evaluate_null_threshold. exact Hall.
Qed.

Lemma flush_buffers_empty (st : state W) :
  buffers_empty st -> flush cfg st = st.
Proof.
  intros He. unfold flush.
  induction (dict_keys [] (table_ids cfg)) as [| tid l IH]; [reflexivity |].
  simpl. unfold flush_table at 2. rewrite He. exact IH.
Qed.

(** X27. A trigger job that has no trigger able to fire (no triggers at
    all, or only triggers without threshold on operators other than
    [change]) never enqueues a row and never calls the write callback, in
    the loop or on stop, whatever is read. *)
Theorem trigger_job_without_threshold_is_silent (n : nat) (w : W)
  (ex : JobExecutor.t) (m : JobMetrics.t) :
  job_type cfg <> "continuous" ->
  Forall (fun tr => JobExecutor.value tr = None /\
                    JobExecutor.operator tr <> "change") (triggers cfg) ->
  trace (_run_job_loop job_id cfg n w ex m) = [].
Proof.
  intros Hty Hall.
  assert (Hinv : trace (iterate job_id cfg n (init job_id cfg w ex m)) = [] /\
                 buffers_empty (iterate job_id cfg n (init job_id cfg w ex m))).
  { apply (iterate_inv job_id cfg (fun s => trace s = [] /\ buffers_empty s)).
    - intros s tid [Ht Hb]. unfold process_table.
      destruct (perf_counter (world s)) as [read_start w1].
      destruct (read_callback tid w1) as [[values | e] w2].
      + destruct (perf_counter w2) as [t w3]. destruct (utcnow w3) as [now w4].
        destruct values as [values |]; [| auto].
        match goal with
        | |- context [should_write job_id cfg tid values ?s0] =>
            pose proof (should_write_frame job_id cfg tid values s0) as [Hf1 Hf2];
            pose proof (should_write_trigger_false tid values s0 Hty Hall) as Hsw;
            destruct (should_write job_id cfg tid values s0) as [sw st5]
        end.
        simpl in *. subst sw. unfold buffers_empty in *.
        rewrite Hf1, Hf2. auto.
      + match goal with
        | |- context [on_exception e ?s0] =>
            destruct (on_exception_frame e s0) as (Hf1 & Hf2 & _)
        end.
        unfold buffers_empty in *. rewrite Hf1, Hf2. auto.
    - intros s w0 Hs. exact Hs.
    - split; [reflexivity |]. intros tid.
      destruct (batch_buffer (init job_id cfg w ex m) !! tid) as [buf |] eqn:Hb;
        [| reflexivity].
      simpl. eapply init_buffers. exact Hb. }
  destruct Hinv as [Ht He].
  unfold _run_job_loop. rewrite (flush_buffers_empty _ He). exact Ht.
Qed.

Lemma enqueue_immediate (table_id : string) (values : values_t) (st : state W) :
  batch_size cfg <= 1 ->
  (forall t rows w0, returns (write_callback t rows w0).1) ->
  buffers_empty st ->
  write_calls (trace st) = (fun r => [r]) <$> enqueued (trace st) ->
  buffers_empty (enqueue cfg table_id values st) /\
  write_calls (trace (enqueue cfg table_id values st))
  = (fun r => [r]) <$> enqueued (trace (enqueue cfg table_id values st)).
Proof.
  intros Hbs Hret He Hw. unfold enqueue.
  destruct (utcnow (world st)) as [ts w1]. cbv zeta.
  rewrite !(He table_id). simpl app. simpl length.
  destruct (Z.leb_spec (batch_size cfg) (Z.of_nat 1)) as [_ | Hlt]; [| lia].
  destruct (perf_counter w1) as [write_start w2].
  match goal with
  | |- context [write_callback table_id ?rows w2] =>
      specialize (Hret table_id rows w2);
      destruct (write_callback table_id rows w2) as [[success | e] w3]
  end; [| contradiction].
  destruct (perf_counter w3) as [t w4].
  assert (Hgoal : forall (w5 : W) (m5 : JobMetrics.t),
            let st' := mk w5 (self st) m5
                         (<[table_id := []]>
                            (<[table_id := [<["timestamp_utc" := VTime ts]> values]]>
                               (batch_buffer st)))
                         ((trace st ++ [EvEnqueue table_id
                                          (<["timestamp_utc" := VTime ts]> values)])
                          ++ [EvWrite table_id
                                [<["timestamp_utc" := VTime ts]> values]]) in
            buffers_empty st' /\
            write_calls (trace st') = (fun r => [r]) <$> enqueued (trace st')).
  { intros w5 m5 st'. subst st'. split.
    - intros tid. simpl. destruct (decide (tid = table_id)) as [-> | Hne].
      + rewrite lookup_insert_eq. reflexivity.
      + rewrite !lookup_insert_ne by congruence. apply He.
    - simpl. rewrite !write_calls_app, !enqueued_app, Hw. simpl.
      rewrite !app_nil_r, fmap_app. reflexivity. }
  destruct success; [destruct (utcnow w4) as [now w5] |]; apply Hgoal.
Qed.

(** X28. With [batch_size] 1 or less (zero and negative included) and a
    write callback that returns, nothing is ever held back: every enqueued
    row is written at once, alone, in the order of enqueueing, for all the
    tables of the job; no row is buffered between two reads and the stop
    has nothing left to flush. *)
Theorem batch_size_one_writes_at_once (n : nat) (w : W) (ex : JobExecutor.t)
  (m : JobMetrics.t) :
  batch_size cfg <= 1 ->
  (forall t rows w0, returns (write_callback t rows w0).1) ->
  let st := iterate job_id cfg n (init job_id cfg w ex m) in
  write_calls (trace st) = (fun r => [r]) <$> enqueued (trace st) /\
  buffers_empty st /\
  _run_job_loop job_id cfg n w ex m = st.
Proof.
  intros Hbs Hret st.
  assert (Hinv : buffers_empty st /\
                 write_calls (trace st) = (fun r => [r]) <$> enqueued (trace st)).
  { subst st.
    apply (iterate_inv job_id cfg
             (fun s => buffers_empty s /\
                       write_calls (trace s) = (fun r => [r]) <$> enqueued (trace s))).
    - intros s tid [He Hw]. unfold process_table.
      destruct (perf_counter (world s)) as [read_start w1].
      destruct (read_callback tid w1) as [[values | e] w2].
      + destruct (perf_counter w2) as [t w3]. destruct (utcnow w3) as [now w4].
        destruct values as [values |]; [| auto].
        match goal with
        | |- context [should_write job_id cfg tid values ?s0] =>
            pose proof (should_write_frame job_id cfg tid values s0) as [Hf1 Hf2];
            destruct (should_write job_id cfg tid values s0) as [sw st5]
        end.
        simpl in Hf1, Hf2.
        assert (H5 : buffers_empty st5 /\
                     write_calls (trace st5)
                     = (fun r => [r]) <$> enqueued (trace st5))
          by (unfold buffers_empty; rewrite Hf1, Hf2; auto).
        destruct sw as [[|] | e].
        * apply enqueue_immediate; tauto.
        * exact H5.
        * destruct (on_exception_frame e st5) as (Hf1' & Hf2' & _).
          unfold buffers_empty. rewrite Hf1', Hf2'. exact H5.
      + match goal with
        | |- context [on_exception e ?s0] =>
            destruct (on_exception_frame e s0) as (Hf1 & Hf2 & _)
        end.
        unfold buffers_empty in *. rewrite Hf1, Hf2. auto.
    - intros s w0 Hs. exact Hs.
    - split; [| reflexivity]. intros tid.
      destruct (batch_buffer (init job_id cfg w ex m) !! tid) as [buf |] eqn:Hb;
        [| reflexivity].
      simpl. eapply init_buffers. exact Hb. }
  destruct Hinv as [He Hw]. split; [exact Hw |]. split; [exact He |].
  unfold _run_job_loop. fold st. apply flush_buffers_empty. exact He.
Qed.

End WorkerCounts.

Lemma trigger_job_without_threshold_is_silent_witness :
  let cb := JobViewSet.job_callbacks Sample.env_ok Sample.tables Sample.read in
  let cfg := Worker.mk_config "trigger" 1000 ["T"]
               [JobExecutor.mk_trigger "power" ">" None 0 0] 1 in
  Worker.job_type cfg <> "continuous" /\
  Forall (fun tr => JobExecutor.value tr = None /\
                    JobExecutor.operator tr <> "change") (Worker.triggers cfg) /\
  Worker.trace (Worker._run_job_loop "J" cfg 5 Sample.w0 Sample.ex0
                  (JobMetrics.new "J")) = [].
Proof.
  intros cb cfg.
  assert (Hty : Worker.job_type cfg <> "continuous") by discriminate.
  assert (Hall : Forall (fun tr => JobExecutor.value tr = None /\
                                   JobExecutor.operator tr <> "change")
                   (Worker.triggers cfg)).
  { constructor; [split; [reflexivity | discriminate] | constructor]. }
  split; [exact Hty |]. split; [exact Hall |].
  exact (trigger_job_without_threshold_is_silent (H := cb) "J" cfg 5 Sample.w0
           Sample.ex0 (JobMetrics.new "J") Hty Hall).
Defined.

Lemma batch_size_one_writes_at_once_witness :
  let cb := JobViewSet.job_callbacks Sample.env_ok Sample.tables Sample.read in
  let st := Worker.iterate "J" (Sample.cfg 1) 4
              (Worker.init "J" (Sample.cfg 1) Sample.w0 Sample.ex0
                 (JobMetrics.new "J")) in
  Worker.batch_size (Sample.cfg 1) <= 1 /\
  length (Worker.enqueued (Worker.trace st)) = 4%nat /\
  Worker.write_calls (Worker.trace st)
  = (fun r => [r]) <$> Worker.enqueued (Worker.trace st) /\
  buffers_empty st /\
  Worker._run_job_loop "J" (Sample.cfg 1) 4 Sample.w0 Sample.ex0
    (JobMetrics.new "J") = st.
Proof.
  intros cb st.
  assert (Hbs : Worker.batch_size (Sample.cfg 1) <= 1) by (simpl; lia).
  split; [exact Hbs |]. split; [vm_compute; reflexivity |].
  exact (batch_size_one_writes_at_once (H := cb) "J" (Sample.cfg 1) 4 Sample.w0
           Sample.ex0 (JobMetrics.new "J") Hbs
           (write_callback_returns Sample.env_ok Sample.tables)).
Defined.

(** ** Counters of the worker loop *)

Section WorkerCounters.
Import Worker.

Context {W : Type} `{Callbacks W}.

Variable job_id : string.
Variable cfg : job_config.

Lemma apply_cooldown_io (table_id : string) (now : Z) (tr : JobExecutor.trigger)
  (fired : bool) (st : JobExecutor.eval_state) :
  io_counters (JobExecutor.metrics
                 (JobExecutor.apply_cooldown table_id now tr fired st))
  = io_counters (JobExecutor.metrics st).
Proof.
  unfold JobExecutor.apply_cooldown.
  destruct (JobExecutor.in_cooldown _ _ _ _ _), fired; reflexivity.
Qed.

Lemma eval_loop_io (table_id : string) (values last_values : values_t)
  (now : Z) (triggers : list JobExecutor.trigger) (st : JobExecutor.eval_state) :
  match JobExecutor.eval_loop table_id values last_values now triggers st with
  | inl st' | inr (st', _) =>
      io_counters (JobExecutor.metrics st') = io_counters (JobExecutor.metrics st)
  end.
Proof.
  revert st. induction triggers as [| tr rest IH]; intros st; simpl;
    [reflexivity |].
  unfold JobExecutor.eval_trigger.
  destruct (values !! JobExecutor.field tr) as [new_val |]; [| apply IH].
  destruct (JobExecutor.raw_fired tr new_val _) as [fired | e]; [| reflexivity].
  specialize (IH (JobExecutor.apply_cooldown table_id now tr fired st)).
  destruct (JobExecutor.eval_loop _ _ _ _ rest _) as [st' | [st' e]];
    rewrite IH; apply apply_cooldown_io.
Qed.

Lemma should_write_io (table_id : string) (values : values_t) (st : state W) :
  io_counters (metrics (should_write job_id cfg table_id values st).2)
  = io_counters (metrics st).
Proof.
  unfold should_write. destruct (String.eqb _ _); [reflexivity |].
  destruct (utcnow (world st)) as [now w]. simpl.
  unfold JobExecutor._evaluate_triggers.
  match goal with
  | |- context [JobExecutor.eval_loop ?a ?b ?c ?d ?e ?f] =>
      pose proof (eval_loop_io a b c d e f) as Hio;
      destruct (JobExecutor.eval_loop a b c d e f) as [st' | [st' e']]
  end; exact Hio.
Qed.

Lemma counted_should_write (k : Z) (m : JobMetrics.t) (table_id : string)
  (values : values_t) (st : state W) :
  counted k m st -> counted k m (should_write job_id cfg table_id values st).2.
Proof.
  pose proof (should_write_io table_id values st) as Hio.
  destruct (should_write_frame job_id cfg table_id values st) as [Ht _].
  unfold counted, io_counters in *. rewrite Ht.
  injection Hio as -> -> -> -> ->. auto.
Qed.

Lemma counted_on_exception (k : Z) (m : JobMetrics.t) (e : string)
  (st : state W) :
  counted k m st -> counted k m (on_exception e st).
Proof.
  unfold counted, on_exception.
  destruct (utcnow (world st)) as [now w]. simpl. lia.
Qed.

Lemma counted_enqueue (m : JobMetrics.t) (table_id : string)
  (values : values_t) (st : state W) :
  counted 1 m st -> counted 0 m (enqueue cfg table_id values st).
Proof.
  intros Hc. unfold enqueue.
  destruct (utcnow (world st)) as [ts w1]. cbv zeta.
  destruct (batch_size cfg <=? _).
  - destruct (perf_counter w1) as [write_start w2].
    destruct (write_callback table_id _ w2) as [[success | e] w3].
    + destruct (perf_counter w3) as [t w4].
      destruct success; [destruct (utcnow w4) as [now w5] |];
        unfold counted in *; simpl;
        rewrite !write_calls_app, !enqueued_app, ?concat_app, !length_app;
        simpl; rewrite ?app_nil_r, ?length_app; simpl; lia.
    + apply counted_on_exception.
      unfold counted in *; simpl.
      rewrite !write_calls_app, !enqueued_app, ?concat_app, !length_app.
      simpl. lia.
  - unfold counted in *; simpl.
    rewrite !write_calls_app, !enqueued_app, ?concat_app, !length_app.
    simpl. lia.
Qed.

Lemma counted_weaken (k : Z) (m : JobMetrics.t) (st : state W) :
  0 <= k -> counted k m st -> counted 0 m st.
Proof. unfold counted. lia. Qed.

Lemma counted_process_table (m : JobMetrics.t) (st : state W) (tid : string) :
  counted 0 m st -> counted 0 m (process_table job_id cfg st tid).
Proof.
  intros Hc. unfold process_table.
  destruct (perf_counter (world st)) as [read_start w1].
  destruct (read_callback tid w1) as [[values | e] w2].
  - destruct (perf_counter w2) as [t w3]. destruct (utcnow w3) as [now w4].
    match goal with
    | |- context [should_write job_id cfg tid _ ?s0] =>
        assert (H1 : counted 1 m s0) by (unfold counted in *; simpl; lia)
    end.
    destruct values as [values |];
      [| apply (counted_weaken 1); [lia | exact H1]].
    match goal with
    | |- context [should_write job_id cfg tid values ?s0] =>
        pose proof (counted_should_write 1 m tid values s0 H1) as H5;
        destruct (should_write job_id cfg tid values s0) as [sw st5]
    end.
    simpl in H5. destruct sw as [[|] | e].
    + apply counted_enqueue. exact H5.
    + apply (counted_weaken 1); [lia | exact H5].
    + apply counted_on_exception. apply (counted_weaken 1); [lia | exact H5].
  - apply counted_on_exception. exact Hc.
Qed.

Lemma flush_table_metrics (st : state W) (table_id : string) :
  metrics (flush_table st table_id) = metrics st.
Proof.
  unfold flush_table.
  destruct (default [] (batch_buffer st !! table_id)); [reflexivity |].
  destruct (write_callback _ _ _). reflexivity.
Qed.

Lemma flush_metrics (st : state W) : metrics (flush cfg st) = metrics st.
Proof.
  unfold flush.
  apply (foldl_inv (fun s => metrics s = metrics st));
    [intros s tid Hs; rewrite flush_table_metrics; exact Hs | reflexivity].
Qed.

(** X29. The counters of a job against what its loop did, whatever the
    callbacks do. The flush on stop records nothing, so the rows it writes
    are in no counter. [writes] grows by at most the number of write calls
    of the loop, [rows_written] by at most the rows handed to them, and
    [write_errors] by at most [writes]; every enqueued row stands for a
    read recorded as successful, so [reads - read_errors] grows by at
    least the number of rows enqueued. *)
Theorem loop_counters (n : nat) (w : W) (ex : JobExecutor.t) (m : JobMetrics.t) :
  let st := iterate job_id cfg n (init job_id cfg w ex m) in
  let fin := _run_job_loop job_id cfg n w ex m in
  let calls := write_calls (trace st) in
  metrics fin = metrics st /\
  0 <= JobMetrics.writes (metrics fin) - JobMetrics.writes m
    <= Z.of_nat (length calls) /\
  0 <= JobMetrics.write_errors (metrics fin) - JobMetrics.write_errors m
    <= JobMetrics.writes (metrics fin) - JobMetrics.writes m /\
  0 <= JobMetrics.rows_written (metrics fin) - JobMetrics.rows_written m
    <= Z.of_nat (length (concat calls)) /\
  Z.of_nat (length (enqueued (trace st)))
  <= (JobMetrics.reads (metrics fin) - JobMetrics.read_errors (metrics fin))
     - (JobMetrics.reads m - JobMetrics.read_errors m).
Proof.
  intros st fin calls.
  assert (Hm : metrics fin = metrics st) by apply flush_metrics.
  assert (Hc : counted 0 m st).
  { subst st. apply (iterate_inv job_id cfg (counted 0 m)).
    - intros s tid. apply counted_process_table.
    - intros s w0 Hs. exact Hs.
    - unfold counted, init. simpl. lia. }
  rewrite Hm. unfold counted in Hc. fold calls in Hc.
  split; [reflexivity |]. repeat split; lia.
Qed.

End WorkerCounters.

(** ** Closing the Modbus clients *)

Section ModbusShutdown.
Import ModbusClient.




End ModbusShutdown.
